(** * Shallow embedding of [util.py] (hart-pytorch): box geometry, the
    masked negative-log loss, gradient clipping and box-to-mask rasterization.

    Tensors are modelled as (nested) lists of reals: a box array of shape
    [(..., 4)] is flattened to a [list box], a [(batch, nobjs)] tensor is a
    [list (list R)].  Float rounding is not modelled; what is modelled is
    where a float computation leaves the finite numbers: [fl] below is the
    result type of the operations that can produce [NaN] or [+-inf]. *)

From Stdlib Require Import Reals Lra Lia List ZArith QArith Qround Qminmax Bool.
Import ListNotations.
Open Scope R_scope.

(** ** Float results *)

(** A float value: a finite real, or a non-finite one ([NaN], [+inf] and
    [-inf] are collapsed into [NonFin]).  The collapse is exact for the
    operations used below, since no divisor in this file is ever non-finite:
    every arithmetic operation with a non-finite operand is non-finite
    ([inf * 0 = NaN], [inf + x = inf], [NaN op x = NaN]). *)
Inductive fl := Fin (r : R) | NonFin.

Definition fadd (a b : fl) : fl :=
  match a, b with Fin x, Fin y => Fin (x + y) | _, _ => NonFin end.

Definition fmul (a b : fl) : fl :=
  match a, b with Fin x, Fin y => Fin (x * y) | _, _ => NonFin end.

(** [x / 0] is [+-inf] for [x <> 0] and [NaN] for [x = 0]. *)
Definition fdiv (a b : fl) : fl :=
  match a, b with
  | Fin x, Fin y => if Req_EM_T y 0 then NonFin else Fin (x / y)
  | _, _ => NonFin
  end.

Definition fneg (a : fl) : fl :=
  match a with Fin x => Fin (- x) | NonFin => NonFin end.

(** [torch.log]: [log 0 = -inf], [log x = NaN] for [x < 0]. *)
Definition flog (a : fl) : fl :=
  match a with
  | Fin x => if Rlt_dec 0 x then Fin (ln x) else NonFin
  | NonFin => NonFin
  end.

(** [(c).float()] of a boolean tensor. *)
Definition ind (c : bool) : R := if c then 1 else 0.

Definition Rltb (x y : R) : bool := if Rlt_dec x y then true else false.
Definition Rneqb (x y : R) : bool := if Req_EM_T x y then false else true.
Definition Rgeb (x y : R) : bool := if Rle_dec y x then true else false.

(** Elementwise binary operation on equally shaped tensors. *)
Fixpoint zip_with {A B C : Type} (f : A -> B -> C) (l1 : list A) (l2 : list B)
  : list C :=
  match l1, l2 with
  | a :: l1', b :: l2' => f a b :: zip_with f l1' l2'
  | _, _ => []
  end.

(** [t.sum()] of a float tensor, [t.sum(1)] applied row by row. *)
Definition fsum (l : list fl) : fl := fold_right fadd (Fin 0) l.

Definition Rsum (l : list R) : R := fold_right Rplus 0 l.

(** ** [nll] and [masked_nll] *)

Definition eps_default : R := / 100000000.

(** [dx = ((x - eps) < 0).float() * eps]; the argument of the logarithm. *)
Definition nll_arg (x eps : R) : R :=
  let dx := ind (Rltb (x - eps) 0) * eps in
  x + dx.

(** [nll(x, eps) = -T.log(x + dx)], one entry. *)
Definition nll_eps (x eps : R) : fl := fneg (flog (Fin (nll_arg x eps))).

Definition nll (x : R) : fl := nll_eps x eps_default.

(** [(q != 0).float()]. *)
Definition nonzero (q : R) : R := ind (Rneqb q 0).

(** Product of a float tensor entry by a real tensor entry. *)
Definition fmul_r (a : fl) (b : R) : fl := fmul a (Fin b).

(** [nll_x.sum(1) / p.clamp(min=1) * (p != 0).float()], one row. *)
Definition row_div (s : fl) (pi : R) : fl :=
  fmul (fdiv s (Fin (Rmax pi 1))) (Fin (nonzero pi)).

(** [masked_nll(x, presence, weight=None)], on [(batch, nobjs)] tensors. *)
Definition masked_nll (x presence : list (list R)) (weight : option (list (list R)))
  : fl :=
  let nll_x := map (map nll) x in
  let nll_x := match weight with
               | Some w => zip_with (zip_with fmul_r) nll_x w
               | None => nll_x
               end in
  let mask := map (map nonzero) presence in
  let nll_x := zip_with (zip_with fmul_r) nll_x mask in
  let p := map Rsum mask in
  let _nll := zip_with row_div (map fsum nll_x) p in
  fdiv (fsum _nll) (Fin (Rsum (map nonzero p))).

(** ** Boxes *)

(** A box [(x, y, w, h)]: the last axis of size 4 of a box tensor. *)
Record box := mkbox { box_x : R; box_y : R; box_w : R; box_h : R }.

Definition area (b : box) : R := box_w b * box_h b.

(** [check_bbox_validness(b)]: two assertions over the whole array; [None]
    is the [AssertionError]. *)
Definition check_bbox_validness (b : list box) : option unit :=
  if forallb (fun bb => Rgeb (box_w bb) 0) b then
    if forallb (fun bb => Rgeb (box_h bb) 0) b then Some tt else None
  else None.

(** [clamp_bbox(b)], value part: [bw - bw.clamp(max=0).detach()]. *)
Definition clamp_bbox (b : box) : box :=
  mkbox (box_x b) (box_y b)
        (box_w b - Rmin (box_w b) 0) (box_h b - Rmin (box_h b) 0).

(** The geometry of [intersection], for one pair of boxes. *)
Definition inter1 (a b : box) : R :=
  let x1 := Rmax (box_x a) (box_x b) in
  let y1 := Rmax (box_y a) (box_y b) in
  let x2 := Rmin (box_x a + box_w a) (box_x b + box_w b) in
  let y2 := Rmin (box_y a + box_h a) (box_y b + box_h b) in
  let w := Rmax (x2 - x1) 0 in
  let h := Rmax (y2 - y1) 0 in
  w * h.

(** [intersection(a, b)]: both validity checks, then the elementwise
    geometry. *)
Definition intersection (a b : list box) : option (list R) :=
  match check_bbox_validness a with
  | None => None
  | Some _ =>
      match check_bbox_validness b with
      | None => None
      | Some _ => Some (zip_with inter1 a b)
      end
  end.

(** [iou(a, b) = i_area / (a_area + b_area - i_area)], unguarded division. *)
Definition iou (a b : list box) : option (list fl) :=
  match intersection a b with
  | None => None
  | Some i_area =>
      Some (zip_with (fun ab i => fdiv (Fin i) (Fin (area (fst ab) + area (snd ab) - i)))
                     (combine a b) i_area)
  end.

(** ** [clip_grads] *)

(** A named parameter; its gradient (flattened) is [None] when [p.grad] is
    [None].  Each entry of the list is a distinct parameter. *)
Definition param := (nat * option (list R))%type.

(** [t.norm()]: the L2 norm of a flattened tensor. *)
Definition norm (g : list R) : R := sqrt (Rsum (map (fun v => v * v) g)).

(** First loop of [clip_grads]: [grad_norm = grad_norm + p.grad.data.norm() ** 2]. *)
Fixpoint grad_norm_sq (ps : list param) : R :=
  match ps with
  | [] => 0
  | (_, Some g) :: ps' => grad_norm_sq ps' + norm g ^ 2
  | (_, None) :: ps' => grad_norm_sq ps'
  end.

Definition grad_norm (ps : list param) : R := sqrt (grad_norm_sq ps).

(** [p.grad.data /= grad_norm / max_norm], for one parameter. *)
Definition div_grad (d : R) (p : param) : param :=
  match p with
  | (n, Some g) => (n, Some (map (fun v => v / d) g))
  | (n, None) => (n, None)
  end.

Definition clip_grads (ps : list param) (max_norm : R) : list param :=
  let gn := grad_norm ps in
  if Rlt_dec max_norm gn then map (div_grad (gn / max_norm)) ps else ps.

(** ** [bbox_to_mask] *)

(** Python's [int(r)]: truncation toward zero. *)
Definition py_int (r : R) : Z :=
  if Rle_dec 0 r then Int_part r else (- Int_part (- r))%Z.

(** [T.round(r).int()]: round half to even ([Int_part] is the floor). *)
Definition torch_round (r : R) : Z :=
  let f := Int_part r in
  let d := r - IZR f in
  if Rlt_dec d (/ 2) then f
  else if Rlt_dec (/ 2) d then (f + 1)%Z
  else if Z.even f then f else (f + 1)%Z.

(** The integer quantities computed by [_bbox_to_mask] before it builds the
    raster: the core size [(cols, rows)] (clamped to at least 1), the four
    pads [padspace = (left, right, top, bottom)] and the slice bounds. *)
Record mask_geom := MaskGeom {
  core_w : Z; core_h : Z;
  pad_l : Z; pad_r : Z; pad_t : Z; pad_b : Z;
  slice_rows : Z; slice_cols : Z }.

Definition bbox_mask_geom (yy : box) (region_size : R * R) : mask_geom :=
  let (rs0, rs1) := region_size in
  let neg0 := Rmax (- box_x yy) 0 in
  let neg1 := Rmax (- box_y yy) 0 in
  let cw := Z.max (torch_round (box_w yy - neg0)) 1 in
  let ch := Z.max (torch_round (box_h yy - neg1)) 1 in
  let y1 := Rmax (box_y yy) 0 in
  let x1 := Rmax (box_x yy) 0 in
  let y2 := Rmin (box_y yy + box_h yy) rs0 in
  let x2 := Rmin (box_x yy + box_w yy) rs1 in
  MaskGeom cw ch (py_int x1) (py_int (rs1 - x2)) (py_int y1) (py_int (rs0 - y2))
           (Z.max (py_int rs0) 1) (Z.max (py_int rs1) 1).

(** [F.pad] on one side of one axis: a negative pad crops. *)
Definition pad_front {A : Type} (k : Z) (z : A) (l : list A) : list A :=
  if (0 <=? k)%Z then repeat z (Z.to_nat k) ++ l else skipn (Z.to_nat (- k)) l.

Definition pad_back {A : Type} (k : Z) (z : A) (l : list A) : list A :=
  if (0 <=? k)%Z then l ++ repeat z (Z.to_nat k)
  else firstn (length l - Z.to_nat (- k)) l.

(** [core = ones(rows, cols)], [F.pad(core, padspace)], then the slice
    [padded[:max(int(rows), 1), :max(int(cols), 1)]]. *)
Definition raster (g : mask_geom) : list (list Z) :=
  let core := repeat (repeat 1%Z (Z.to_nat (core_w g))) (Z.to_nat (core_h g)) in
  let rows := map (fun r => pad_back (pad_r g) 0%Z (pad_front (pad_l g) 0%Z r)) core in
  let zr := repeat 0%Z (length (hd [] rows)) in
  let padded := pad_back (pad_b g) zr (pad_front (pad_t g) zr rows) in
  map (firstn (Z.to_nat (slice_cols g))) (firstn (Z.to_nat (slice_rows g)) padded).

Definition list_min (l : list Z) : Z :=
  match l with [] => 0 | a :: l' => fold_left Z.min l' a end%Z.

Definition list_max (l : list Z) : Z :=
  match l with [] => 0 | a :: l' => fold_left Z.max l' a end%Z.

(** [scipy.misc.bytescale(data)] with [low = 0], [high = 255] and
    [cmin], [cmax] the extremes of the data, as [toimage] calls it. *)
Definition bytescale (data : list (list Z)) : list (list Z) :=
  let cmin := list_min (concat data) in
  let cmax := list_max (concat data) in
  let cscale := (cmax - cmin)%Z in
  let cscale := if (cscale =? 0)%Z then 1%Z else cscale in
  let scale := ((255 # 1) / inject_Z cscale)%Q in
  map (map (fun d =>
    let b := (inject_Z (d - cmin) * scale)%Q in
    let b := Qmax 0%Q (Qmin b (255 # 1)) in
    Qfloor (b + (1 # 2))%Q))
    data.

(** PIL's [Image.resize]: the image itself when the requested size is its
    own, otherwise the resampling filter [resample]. *)
Definition pil_resize (resample : list (list Z) -> nat * nat -> list (list Z))
  (img : list (list Z)) (size : nat * nat) : list (list Z) :=
  if (Nat.eqb (length img) (fst size) && Nat.eqb (length (hd [] img)) (snd size))%bool
  then img else resample img size.

(** [_bbox_to_mask(yy, region_size, output_size)]:
    [imresize(mask, output_size) / 255.]. *)
Definition _bbox_to_mask (resample : list (list Z) -> nat * nat -> list (list Z))
  (yy : box) (region_size : R * R) (output_size : nat * nat) : list (list R) :=
  let mask := raster (bbox_mask_geom yy region_size) in
  map (map (fun z => IZR z / 255)) (pil_resize resample (bytescale mask) output_size).

(** [bbox_to_mask], on the flattened boxes zipped with their region sizes. *)
Definition bbox_to_mask (resample : list (list Z) -> nat * nat -> list (list Z))
  (bbox : list (box * R * R)) (output_size : nat * nat) : list (list (list R)) :=
  map (fun '(b, rows, cols) => _bbox_to_mask resample b (rows, cols) output_size) bbox.

(** The all-zero raster of a given shape. *)
Definition zeros (size : nat * nat) : list (list R) :=
  repeat (repeat 0 (snd size)) (fst size).

(** A concrete resampling filter (nearest neighbour, pixel centres), used to
    instantiate the [resample] argument in closed statements. *)
Definition nearest_resample (img : list (list Z)) (size : nat * nat) : list (list Z) :=
  let h := length img in
  let w := length (hd [] img) in
  map (fun i =>
         let row := nth (((2 * i + 1) * h) / (2 * fst size)) img [] in
         map (fun j => nth (((2 * j + 1) * w) / (2 * snd size)) row 0%Z)
             (seq 0 (snd size)))
      (seq 0 (fst size)).

(** ** The masked mean as the specification words it *)

(** [negLog(x) = -log(x)], with [eps] added where [x < eps]. *)
Definition negLog_spec (x : R) : R :=
  - ln (if Rlt_dec x eps_default then x + eps_default else x).

Definition count_present (pr : list R) : nat :=
  length (filter (fun q => Rneqb q 0) pr).




(** Two loss (or weight) tensors that agree wherever [presence] is nonzero,
    and whose entries at the zero-presence positions satisfy [pad_ok]. *)
Fixpoint agree_row (pad_ok : R -> Prop) (p a b : list R) : Prop :=
  match p, a, b with
  | [], [], [] => True
  | q :: p', a1 :: a', b1 :: b' =>
      (q <> 0 -> a1 = b1) /\ (q = 0 -> pad_ok a1 /\ pad_ok b1) /\
      agree_row pad_ok p' a' b'
  | _, _, _ => False
  end.

Fixpoint agree (pad_ok : R -> Prop) (p a b : list (list R)) : Prop :=
  match p, a, b with
  | [], [], [] => True
  | pr :: p', ar :: a', br :: b' => agree_row pad_ok pr ar br /\ agree pad_ok p' a' b'
  | _, _, _ => False
  end.

Definition agree_weight (p : list (list R)) (w1 w2 : option (list (list R))) : Prop :=
  match w1, w2 with
  | None, None => True
  | Some a, Some b => agree (fun _ => True) p a b
  | _, _ => False
  end.




(** A finite float. *)
Definition is_fin (a : fl) : Prop := exists r, a = Fin r.

(** ** More of [util.py] *)

(** *** [intersection_within] *)

(** One pair of boxes: the overlap of [bbox] with [within], in [within]'s
    coordinates (the unused [area = h * w] is left out). *)
Definition inter_within1 (bb wi : box) : box :=
  let x1 := Rmax (box_x bb) (box_x wi) in
  let y1 := Rmax (box_y bb) (box_y wi) in
  let x2 := Rmin (box_x bb + box_w bb) (box_x wi + box_w wi) in
  let y2 := Rmin (box_y bb + box_h bb) (box_y wi + box_h wi) in
  let w := Rmax (x2 - x1) 0 in
  let h := Rmax (y2 - y1) 0 in
  let x := x1 - box_x wi in
  let y := y1 - box_y wi in
  let y := Rmax y 0 in
  let x := Rmax x 0 in
  mkbox x y w h.

(** [intersection_within(bbox, within)]: both validity checks, then the
    elementwise geometry. *)
Definition intersection_within (bbox within : list box) : option (list box) :=
  match check_bbox_validness bbox with
  | None => None
  | Some _ =>
      match check_bbox_validness within with
      | None => None
      | Some _ => Some (zip_with inter_within1 bbox within)
      end
  end.

(** *** The losses on [(batch_size, nobjs)] tensors *)

(** [intersection(a, b)] on [(batch_size, nobjs, 4)] tensors: the checks
    run over the whole tensor. *)
Definition intersection_t (a b : list (list box)) : option (list (list R)) :=
  match check_bbox_validness (concat a) with
  | None => None
  | Some _ =>
      match check_bbox_validness (concat b) with
      | None => None
      | Some _ => Some (zip_with (zip_with inter1) a b)
      end
  end.

(** [iou(a, b)] on [(batch_size, nobjs, 4)] tensors. *)
Definition iou_t (a b : list (list box)) : option (list (list fl)) :=
  match intersection_t a b with
  | None => None
  | Some i_area =>
      Some (zip_with
              (fun ab ir =>
                 zip_with (fun ab' i => fdiv (Fin i) (Fin (area (fst ab') + area (snd ab') - i)))
                          (combine (fst ab) (snd ab)) ir)
              (combine a b) i_area)
  end.

(** The finite entries of a tensor, or [None] when one of them is NaN or
    infinite. *)
Fixpoint fins (l : list fl) : option (list R) :=
  match l with
  | [] => Some []
  | Fin r :: l' => match fins l' with Some rs => Some (r :: rs) | None => None end
  | NonFin :: _ => None
  end.

Fixpoint fins2 (l : list (list fl)) : option (list (list R)) :=
  match l with
  | [] => Some []
  | r :: l' =>
      match fins r, fins2 l' with
      | Some rs, Some rss => Some (rs :: rss)
      | _, _ => None
      end
  end.

(** [masked_nll] applied to a tensor of floats: a NaN or infinite entry is
    NaN or infinite after [nll], stays so after the products (also with a
    presence of [0]: [nan * 0] and [inf * 0] are NaN) and the sums, and the
    result is NaN or infinite. *)
Definition masked_nll_fl (x : list (list fl)) (presence : list (list R))
  (weight : option (list (list R))) : fl :=
  match fins2 x with
  | Some xr => masked_nll xr presence weight
  | None => NonFin
  end.

(** [iou_loss(a, b, presence) = masked_nll(iou(a, b), presence)]. *)
Definition iou_loss (a b : list (list box)) (presence : list (list R)) : option fl :=
  match iou_t a b with
  | None => None
  | Some i => Some (masked_nll_fl i presence None)
  end.

(** [intersection_loss(pred, target, presence)]: the intersection divided by
    the target's area, or by [1] where that area is [0]. *)
Definition intersection_loss (pred target : list (list box)) (presence : list (list R))
  : option fl :=
  let areas := map (map area) target in
  match intersection_t pred target with
  | None => None
  | Some i =>
      let i := zip_with (zip_with (fun ii ar =>
                 fdiv (Fin ii) (Fin (ar * ind (Rneqb ar 0) + ind (negb (Rneqb ar 0))))))
                 i areas in
      Some (masked_nll_fl i presence None)
  end.

(** A float quotient [a / d] with its infinities and NaN apart; [d] is the
    product [nrows * ncols], a zero of it is taken as [+0]. *)
Inductive xr := XFin (r : R) | XPInf | XNInf | XNaN.

Definition xdiv (a d : R) : xr :=
  if Req_EM_T d 0 then
    if Rlt_dec 0 a then XPInf else if Rlt_dec a 0 then XNInf else XNaN
  else XFin (a / d).

(** [T.clamp(v, lo, hi)]; [None] is NaN. *)
Definition xclamp (lo hi : R) (v : xr) : option R :=
  match v with
  | XFin r => Some (Rmin (Rmax r lo) hi)
  | XPInf => Some hi
  | XNInf => Some lo
  | XNaN => None
  end.

Fixpoint opts (l : list (option R)) : option (list R) :=
  match l with
  | [] => Some []
  | Some r :: l' => match opts l' with Some rs => Some (r :: rs) | None => None end
  | None :: _ => None
  end.

Fixpoint opts2 (l : list (list (option R))) : option (list (list R)) :=
  match l with
  | [] => Some []
  | r :: l' =>
      match opts r, opts2 l' with
      | Some rs, Some rss => Some (rs :: rss)
      | _, _ => None
      end
  end.

(** [area_loss(pred, nrows, ncols, presence)], with [nrows] and [ncols]
    numbers broadcast over the tensor; a NaN ratio makes the result NaN. *)
Definition area_loss (pred : list (list box)) (nrows ncols : R) (presence : list (list R))
  : fl :=
  let ratio := map (map (fun b => xdiv (area b) (nrows * ncols))) pred in
  let weight := map (map (xclamp 1 10)) ratio in
  let ratio := map (map (xclamp 0 1)) ratio in
  match opts2 weight, opts2 ratio with
  | Some w, Some r => masked_nll (map (map (fun v => 1 - v)) r) presence (Some w)
  | _, _ => NonFin
  end.

(** *** [check_grads] *)

(** A named parameter whose gradient entries are floats. *)
Definition gparam := (nat * option (list fl))%type.

(** [anynan(g) or anybig(g)]: a NaN entry is caught by [anynan], an infinite
    one by [anybig] ([abs(inf) > 1e+5]), a finite one by [anybig] exactly when
    its absolute value exceeds [1e+5]. *)
Definition bad_entry (v : fl) : bool :=
  match v with
  | NonFin => true
  | Fin r => Rltb 100000 (Rabs r)
  end.

Definition anynan_or_anybig (g : list fl) : bool := existsb bad_entry g.

(** [check_grads(named_params)]: the [fail] flag and the names it prints, in
    order. *)
Definition check_grads_step (st : bool * list nat) (p : gparam) : bool * list nat :=
  let '(fail, printed) := st in
  match p with
  | (n, Some g) => if anynan_or_anybig g then (true, printed ++ [n]) else (fail, printed)
  | (_, None) => (fail, printed)
  end.

Definition check_grads (named_params : list gparam) : bool * list nat :=
  fold_left check_grads_step named_params (false, []).

(** *** [conv_output_size] *)




(** *** [torch_normalize_image] and [torch_unnormalize_image] *)

(** A pixel of an image [(..., 3)]; the leading axes are flattened. *)
Record rgb := RGB { ch_r : R; ch_g : R; ch_b : R }.

Definition rgb_map (f : R -> R) (p : rgb) : rgb :=
  RGB (f (ch_r p)) (f (ch_g p)) (f (ch_b p)).

Definition rgb_map2 (f : R -> R -> R) (p q : rgb) : rgb :=
  RGB (f (ch_r p) (ch_r q)) (f (ch_g p) (ch_g q)) (f (ch_b p) (ch_b q)).

Definition img_mean : rgb := RGB (485 / 1000) (456 / 1000) (406 / 1000).
Definition img_std : rgb := RGB (229 / 1000) (224 / 1000) (225 / 1000).

Definition torch_normalize_image (x : list rgb) : list rgb :=
  map (fun p => rgb_map2 Rdiv (rgb_map2 Rminus p img_mean) img_std) x.

(** [np.clip(v, lo, hi)]. *)
Definition np_clip (v lo hi : R) : R := Rmin (Rmax v lo) hi.

Definition torch_unnormalize_image (x : list rgb) : list rgb :=
  map (fun p => rgb_map (fun v => np_clip v 0 1)
                        (rgb_map2 Rplus (rgb_map2 Rmult p img_std) img_mean)) x.

(** A pixel with every channel in [[0, 1]]. *)
Definition rgb_in01 (p : rgb) : Prop :=
  0 <= ch_r p <= 1 /\ 0 <= ch_g p <= 1 /\ 0 <= ch_b p <= 1.

(** The mask of a box with integer corners: [1] on the pixels it covers. *)
Definition box_indicator (x y w h : Z) (rows cols : nat) : list (list R) :=
  map (fun i => map (fun j =>
         if ((y <=? Z.of_nat i) && (Z.of_nat i <? y + h) &&
             (x <=? Z.of_nat j) && (Z.of_nat j <? x + w))%Z%bool then 1 else 0)
       (seq 0 cols)) (seq 0 rows).

(** A finite float whose value satisfies [P]. *)
Definition finP (P : R -> Prop) (a : fl) : Prop := exists r, a = Fin r /\ P r.

(** A weight tensor, if any, with non-negative entries. *)
Definition weight_nonneg (weight : option (list (list R))) : Prop :=
  match weight with
  | Some w => Forall (Forall (fun c => 0 <= c)) w
  | None => True
  end.

(** A box [c] given in the coordinates of [wb] that lies within it along
    every axis where it is not empty. *)
Definition within_bounds (c wb : box) : Prop :=
  0 <= box_x c /\ 0 <= box_y c /\
  0 <= box_w c <= box_w wb /\ 0 <= box_h c <= box_h wb /\
  (0 < box_w c -> box_x c + box_w c <= box_w wb) /\
  (0 < box_h c -> box_y c + box_h c <= box_h wb).

(** A box that passes [check_bbox_validness]. *)
Definition valid_box (b : box) : Prop := 0 <= box_w b /\ 0 <= box_h b.

(** The division step of [iou] on [(batch_size, nobjs)] tensors. *)
Definition iou_rows (a b : list (list box)) (i_area : list (list R)) : list (list fl) :=
  zip_with
    (fun ab ir =>
       zip_with (fun ab' i => fdiv (Fin i) (Fin (area (fst ab') + area (snd ab') - i)))
                (combine (fst ab) (snd ab)) ir)
    (combine a b) i_area.

(** A parameter that [check_grads] reports. *)
Definition bad_param (p : gparam) : bool :=
  match snd p with Some g => anynan_or_anybig g | None => false end.


(** ** Proofs *)

Ltac rdec :=
  repeat match goal with
  | |- context [Rlt_dec ?a ?b] => destruct (Rlt_dec a b); try (exfalso; lra)
  | |- context [Rle_dec ?a ?b] => destruct (Rle_dec a b); try (exfalso; lra)
  | |- context [Req_EM_T ?a ?b] => destruct (Req_EM_T a b); try (exfalso; lra)
  end.

(** *** Box geometry *)

Lemma clamp_nonneg (v : R) : v - Rmin v 0 = Rmax v 0.
Proof.
  unfold Rmin, Rmax; destruct (Rle_dec v 0); destruct (Rle_dec v 0); lra.
Qed.

(** C6: [clamp_bbox] keeps [x], [y] and replaces [w], [h] by their
    non-negative parts; [clamp_bbox (x, y, -2, 3) = (x, y, 0, 3)]. *)
Theorem clamp_bbox_value :
  (forall x y w h, clamp_bbox (mkbox x y w h) = mkbox x y (Rmax w 0) (Rmax h 0)) /\
  (forall x y, clamp_bbox (mkbox x y (-2) 3) = mkbox x y 0 3).
Proof.
  split.
  - intros x y w h; unfold clamp_bbox; simpl; rewrite !clamp_nonneg; reflexivity.
  - intros x y; unfold clamp_bbox; simpl; rewrite !clamp_nonneg.
    rewrite Rmax_right by lra; rewrite Rmax_left by lra; reflexivity.
Qed.

Lemma check_single (a : box) :
  0 <= box_w a -> 0 <= box_h a -> check_bbox_validness [a] = Some tt.
Proof.
  intros Hw Hh; unfold check_bbox_validness, Rgeb; simpl; rdec; reflexivity.
Qed.

(** One side of the intersection rectangle lies in [[0, len1]]. *)
Lemma side_bounds (lo1 lo2 len1 len2 : R) :
  0 <= len1 ->
  0 <= Rmax (Rmin (lo1 + len1) (lo2 + len2) - Rmax lo1 lo2) 0 <= len1.
Proof.
  intros H; split.
  - apply Rmax_r.
  - apply Rmax_lub; [| exact H].
    pose proof (Rmin_l (lo1 + len1) (lo2 + len2)).
    pose proof (Rmax_l lo1 lo2); lra.
Qed.

Lemma inter1_comm (a b : box) : inter1 a b = inter1 b a.
Proof. unfold inter1; rewrite (Rmax_comm (box_x a)), (Rmax_comm (box_y a)),
  (Rmin_comm (box_x a + _)), (Rmin_comm (box_y a + _)); reflexivity.
Qed.

Lemma inter1_bounds (a b : box) :
  0 <= box_w a -> 0 <= box_h a ->
  0 <= inter1 a b <= area a.
Proof.
  intros Hw Hh; unfold inter1, area.
  pose proof (side_bounds (box_x a) (box_x b) (box_w a) (box_w b) Hw) as [H1 H2].
  pose proof (side_bounds (box_y a) (box_y b) (box_h a) (box_h b) Hh) as [H3 H4].
  split; [apply Rmult_le_pos; assumption |].
  apply Rmult_le_compat; assumption.
Qed.

(** C4: for boxes with non-negative sizes the intersection passes the
    validity checks and lies between [0] and [min(area a, area b)]. *)
Theorem intersection_bounded (a b : box) :
  0 <= box_w a -> 0 <= box_h a -> 0 <= box_w b -> 0 <= box_h b ->
  intersection [a] [b] = Some [inter1 a b] /\
  0 <= inter1 a b /\ inter1 a b <= Rmin (area a) (area b).
Proof.
  intros Hwa Hha Hwb Hhb.
  split.
  - unfold intersection; rewrite !check_single by assumption; reflexivity.
  - pose proof (inter1_bounds a b Hwa Hha) as [H1 H2].
    pose proof (inter1_bounds b a Hwb Hhb) as [_ H3].
    rewrite inter1_comm in H3.
    split; [exact H1 | apply Rmin_glb; assumption].
Qed.

Lemma intersection_bounded_witness :
  intersection [mkbox 0 0 2 2] [mkbox 1 1 2 2] =
    Some [inter1 (mkbox 0 0 2 2) (mkbox 1 1 2 2)] /\
  0 <= inter1 (mkbox 0 0 2 2) (mkbox 1 1 2 2) /\
  inter1 (mkbox 0 0 2 2) (mkbox 1 1 2 2) <= Rmin (area (mkbox 0 0 2 2)) (area (mkbox 1 1 2 2)).
Proof. apply (intersection_bounded (mkbox 0 0 2 2) (mkbox 1 1 2 2)); simpl; lra. Defined.

Lemma iou_zip_comm (la lb : list box) :
  zip_with (fun ab i => fdiv (Fin i) (Fin (area (fst ab) + area (snd ab) - i)))
           (combine la lb) (zip_with inter1 la lb) =
  zip_with (fun ab i => fdiv (Fin i) (Fin (area (fst ab) + area (snd ab) - i)))
           (combine lb la) (zip_with inter1 lb la).
Proof.
  revert lb; induction la as [| a la IH]; intros [| b lb]; simpl; try reflexivity.
  rewrite IH, inter1_comm, (Rplus_comm (area a)); reflexivity.
Qed.

(** C5: [iou(a, a) = 1] for a valid box of positive area, and [iou] is
    symmetric (including its assertion failures). *)
Theorem iou_self_and_symmetric :
  (forall a : box, 0 <= box_w a -> 0 <= box_h a -> 0 < area a ->
     iou [a] [a] = Some [Fin 1]) /\
  (forall la lb : list box, iou la lb = iou lb la).
Proof.
  split.
  - intros a Hw Hh Ha.
    unfold iou, intersection; rewrite !check_single by assumption; simpl.
    assert (Hi : inter1 a a = area a).
    { unfold inter1, area.
      rewrite !(Rmax_left _ _ (Rle_refl _)), !(Rmin_left _ _ (Rle_refl _)).
      replace (box_x a + box_w a - box_x a) with (box_w a) by ring.
      replace (box_y a + box_h a - box_y a) with (box_h a) by ring.
      rewrite !Rmax_left by lra; reflexivity. }
    rewrite Hi; unfold fdiv; rdec.
    do 3 f_equal; field; lra.
  - intros la lb; unfold iou, intersection.
    destruct (check_bbox_validness la), (check_bbox_validness lb); try reflexivity.
    simpl; f_equal; apply iou_zip_comm.
Qed.

Lemma iou_self_and_symmetric_witness :
  iou [mkbox 1 1 2 3] [mkbox 1 1 2 3] = Some [Fin 1].
Proof. apply (proj1 iou_self_and_symmetric); unfold area; simpl; lra. Defined.

Lemma forallb_Rgeb_false (f : box -> R) (l : list box) :
  forallb (fun bb => Rgeb (f bb) 0) l = false <-> Exists (fun bb => f bb < 0) l.
Proof.
  induction l as [| b l IH]; simpl.
  - split; [discriminate | intros H; inversion H].
  - unfold Rgeb at 1; destruct (Rle_dec 0 (f b)) as [Hb | Hb]; simpl.
    + rewrite IH; split.
      * intros H; apply Exists_cons_tl; exact H.
      * intros H; inversion H; subst; [lra | assumption].
    + split; [intros _; apply Exists_cons_hd; lra | reflexivity].
Qed.

Lemma Exists_or_split {A : Type} (P Q : A -> Prop) (l : list A) :
  Exists (fun x => P x \/ Q x) l <-> Exists P l \/ Exists Q l.
Proof.
  induction l as [| a l IH]; split; intros H.
  - inversion H.
  - destruct H as [H | H]; inversion H.
  - inversion H; subst.
    + destruct H1; [left | right]; apply Exists_cons_hd; assumption.
    + apply IH in H1; destruct H1; [left | right]; apply Exists_cons_tl; assumption.
  - destruct H as [H | H]; inversion H; subst.
    + apply Exists_cons_hd; left; assumption.
    + apply Exists_cons_tl, IH; left; assumption.
    + apply Exists_cons_hd; right; assumption.
    + apply Exists_cons_tl, IH; right; assumption.
Qed.

(** C7: [check_bbox_validness] fails exactly when some box of the array has
    a negative width or height; it fails on [(0, 0, -1, 2)], passes on
    [(0, 0, 0, 0)]; [intersection] fails exactly when one of the two checks
    fails, and computes the geometry only once both have passed. *)
Theorem check_bbox_validness_spec :
  (forall b : list box,
     check_bbox_validness b = None <->
     Exists (fun bb => box_w bb < 0 \/ box_h bb < 0) b) /\
  check_bbox_validness [mkbox 0 0 (-1) 2] = None /\
  check_bbox_validness [mkbox 0 0 0 0] = Some tt /\
  (forall a b : list box,
     intersection a b = None <->
     check_bbox_validness a = None \/ check_bbox_validness b = None) /\
  (forall a b : list box,
     check_bbox_validness a = Some tt -> check_bbox_validness b = Some tt ->
     intersection a b = Some (zip_with inter1 a b)).
Proof.
  split; [| split; [| split; [| split]]].
  - intros b; rewrite Exists_or_split, <- !forallb_Rgeb_false.
    unfold check_bbox_validness.
    destruct (forallb (fun bb => Rgeb (box_w bb) 0) b),
             (forallb (fun bb => Rgeb (box_h bb) 0) b);
      split; intros H; try discriminate; auto; destruct H; discriminate.
  - unfold check_bbox_validness, Rgeb; simpl; rdec; reflexivity.
  - unfold check_bbox_validness, Rgeb; simpl; rdec; reflexivity.
  - intros a b; unfold intersection.
    destruct (check_bbox_validness a) as [[]|], (check_bbox_validness b) as [[]|];
      split; intros H; try discriminate; auto; destruct H; discriminate.
  - intros a b Ha Hb; unfold intersection; rewrite Ha, Hb; reflexivity.
Qed.

Lemma check_bbox_validness_spec_witness :
  intersection [mkbox 0 0 0 0] [mkbox 0 0 0 0] =
    Some (zip_with inter1 [mkbox 0 0 0 0] [mkbox 0 0 0 0]).
Proof.
  destruct check_bbox_validness_spec as (_ & _ & Hok & _ & Hgeom).
  apply Hgeom; exact Hok.
Defined.

(** *** Gradient clipping *)


Lemma grad_norm_nonneg (ps : list param) : 0 <= grad_norm ps.
Proof. apply sqrt_pos. Qed.





(** *** [nll] *)

Lemma eps_pos : 0 < eps_default.
Proof. unfold eps_default; lra. Qed.

Lemma nll_arg_cases (x : R) :
  (x < eps_default -> nll_arg x eps_default = x + eps_default) /\
  (eps_default <= x -> nll_arg x eps_default = x).
Proof.
  unfold nll_arg, Rltb, ind; split; intros H; rdec; ring.
Qed.

Lemma nll_fin (x : R) : - eps_default < x -> nll x = Fin (negLog_spec x).
Proof.
  intros H; unfold nll, nll_eps, negLog_spec, flog, fneg.
  destruct (Rlt_dec x eps_default) as [Hx | Hx].
  - rewrite (proj1 (nll_arg_cases x) Hx); rdec; reflexivity.
  - rewrite (proj2 (nll_arg_cases x)) by lra.
    pose proof eps_pos; rdec; reflexivity.
Qed.

Lemma nll_nonfin (x : R) : x <= - eps_default -> nll x = NonFin.
Proof.
  intros H; pose proof eps_pos.
  unfold nll, nll_eps, flog, fneg.
  rewrite (proj1 (nll_arg_cases x)) by lra; rdec; reflexivity.
Qed.

(** C1 (counterexample): at [x = -1] the conditional [eps] does not make the
    argument of [log] positive, and [nll] is not finite. *)
Lemma nll_negative_input :
  nll_arg (-1) eps_default <= 0 /\ nll (-1) = NonFin.
Proof.
  pose proof eps_pos; split.
  - rewrite (proj1 (nll_arg_cases (-1))); unfold eps_default in *; lra.
  - apply nll_nonfin; unfold eps_default; lra.
Qed.

(** C1 (amended): [nll] adds [eps] exactly to the entries [x < eps] and leaves
    the others untouched; the argument of [log] is positive, and [nll]
    finite, exactly for the entries [x > -eps] (so for every non-negative
    entry, [0] included); at or below [-eps] the result is not finite. *)
Theorem nll_guard (x : R) :
  (x < eps_default -> nll_arg x eps_default = x + eps_default) /\
  (eps_default <= x -> nll_arg x eps_default = x) /\
  (- eps_default < x ->
     0 < nll_arg x eps_default /\ nll x = Fin (- ln (nll_arg x eps_default))) /\
  (x <= - eps_default -> nll_arg x eps_default <= 0 /\ nll x = NonFin).
Proof.
  pose proof eps_pos.
  destruct (nll_arg_cases x) as [H1 H2].
  split; [exact H1 | split; [exact H2 | split]].
  - intros Hx.
    assert (Ha : 0 < nll_arg x eps_default).
    { destruct (Rlt_dec x eps_default); [rewrite H1 | rewrite H2]; lra. }
    split; [exact Ha |].
    unfold nll, nll_eps, flog, fneg; rdec; reflexivity.
  - intros Hx; split; [rewrite H1; lra | apply nll_nonfin; exact Hx].
Qed.

Lemma nll_guard_witness :
  nll_arg 0 eps_default = 0 + eps_default /\
  0 < nll_arg 0 eps_default /\ nll 0 = Fin (- ln (nll_arg 0 eps_default)).
Proof.
  pose proof eps_pos as He.
  split; [apply (nll_guard 0); exact He |].
  apply (nll_guard 0); lra.
Defined.

(** *** [masked_nll] *)

Lemma sum_nonzero_count (pr : list R) :
  Rsum (map nonzero pr) = INR (count_present pr).
Proof.
  induction pr as [| q pr IH]; [reflexivity |].
  unfold count_present in *; simpl; rewrite IH.
  unfold nonzero, ind; destruct (Rneqb q 0); cbn [length]; rewrite ?S_INR; ring.
Qed.

Lemma count_present_pos (pr : list R) :
  Exists (fun q => q <> 0) pr -> (0 < count_present pr)%nat.
Proof.
  unfold count_present; induction 1 as [q pr Hq | q pr _ IH]; simpl;
    unfold Rneqb at 1; destruct (Req_EM_T q 0); simpl; try lia; contradiction.
Qed.

Lemma nonzero_0 : nonzero 0 = 0.
Proof. unfold nonzero, Rneqb, ind; rdec; reflexivity. Qed.







Lemma nll_ones (x : list (list R)) :
  Forall (Forall (fun v => - eps_default < v)) x ->
  map (map nll) x = zip_with (zip_with fmul_r) (map (map nll) x) (map (map (fun _ => 1)) x).
Proof.
  induction 1 as [| xr x Hr _ IH]; simpl; [reflexivity |].
  rewrite <- IH; f_equal.
  induction Hr as [| v xr Hv _ IHr]; simpl; [reflexivity |].
  rewrite <- IHr, nll_fin by assumption; unfold fmul_r, fmul; do 2 f_equal; ring.
Qed.






Lemma fsum_fin (l : list fl) : Forall is_fin l -> is_fin (fsum l).
Proof.
  unfold fsum; induction 1 as [| a l [r Ha] _ [s IH]]; simpl.
  - exists 0; reflexivity.
  - rewrite Ha, IH; eexists; reflexivity.
Qed.

Lemma fmul_r_fin (l : list fl) (w : list R) :
  Forall is_fin l -> Forall is_fin (zip_with fmul_r l w).
Proof.
  intros H; revert w; induction H as [| a l [r Ha] _ IH]; intros [| b w]; simpl;
    constructor; auto.
  rewrite Ha; eexists; reflexivity.
Qed.

Lemma nll_row_fin (xr : list R) :
  Forall (fun v => - eps_default < v) xr -> Forall is_fin (map nll xr).
Proof.
  induction 1; simpl; constructor; auto.
  rewrite nll_fin by assumption; eexists; reflexivity.
Qed.

Lemma nonzero_nonneg (q : R) : 0 <= nonzero q.
Proof. unfold nonzero, ind; destruct (Rneqb q 0); lra. Qed.

Lemma Rsum_nonzero_nonneg (l : list R) : 0 <= Rsum (map nonzero l).
Proof.
  induction l as [| q l IH]; simpl; [lra |].
  pose proof (nonzero_nonneg q); unfold Rsum in *; lra.
Qed.

Lemma row_div_fin (s pi : R) : is_fin (row_div (Fin s) pi).
Proof.
  unfold row_div, fdiv, fmul.
  destruct (Req_EM_T (Rmax pi 1) 0) as [H | H].
  - pose proof (Rmax_r pi 1); lra.
  - eexists; reflexivity.
Qed.

(** The shared finiteness argument of [masked_nll]. *)
Lemma masked_nll_fin (x presence : list (list R)) (weight : option (list (list R))) :
  Forall (Forall (fun v => - eps_default < v)) x ->
  Exists (Exists (fun q => q <> 0)) presence ->
  is_fin (masked_nll x presence weight).
Proof.
  intros Hf Hex.
  assert (Hrows : forall y, Forall (Forall is_fin) y ->
            forall m, Forall (Forall is_fin) (zip_with (zip_with fmul_r) y m)).
  { induction 1 as [| r y Hr _ IH]; intros [| mr m]; simpl; constructor; auto.
    apply fmul_r_fin; assumption. }
  assert (Hx : Forall (Forall is_fin) (map (map nll) x)).
  { induction Hf; simpl; constructor; auto using nll_row_fin. }
  assert (Hw : Forall (Forall is_fin)
                 (match weight with
                  | Some w => zip_with (zip_with fmul_r) (map (map nll) x) w
                  | None => map (map nll) x
                  end)) by (destruct weight; auto).
  assert (Hden : 0 < Rsum (map nonzero (map Rsum (map (map nonzero) presence)))).
  { clear Hf Hx Hw Hrows.
    induction Hex as [pr presence Hpr | pr presence _ IH]; simpl.
    - rewrite sum_nonzero_count.
      pose proof (lt_0_INR _ (count_present_pos pr Hpr)) as Hc.
      assert (H1 : nonzero (INR (count_present pr)) = 1)
        by (unfold nonzero, ind, Rneqb; rdec; reflexivity).
      rewrite H1.
      pose proof (Rsum_nonzero_nonneg (map Rsum (map (map nonzero) presence))).
      unfold Rsum in *; lra.
    - pose proof (nonzero_nonneg (Rsum (map nonzero pr))); unfold Rsum in *; lra. }
  unfold masked_nll; cbv zeta.
  pose proof (Hrows _ Hw (map (map nonzero) presence)) as Hm.
  remember (zip_with (zip_with fmul_r) _ (map (map nonzero) presence)) as y.
  assert (Hs : Forall is_fin (map fsum y)).
  { clear Heqy; induction Hm; simpl; constructor; auto using fsum_fin. }
  assert (Hn : forall ps, Forall is_fin (zip_with row_div (map fsum y) ps)).
  { clear Heqy Hm; induction Hs as [| a l [s Ha] _ IH]; intros [| q ps]; simpl;
      constructor; auto.
    rewrite Ha; apply row_div_fin. }
  destruct (fsum_fin _ (Hn (map Rsum (map (map nonzero) presence)))) as [t Ht].
  rewrite Ht; unfold fdiv.
  destruct (Req_EM_T _ 0) as [H0 | _]; [lra | eexists; reflexivity].
Qed.

(** C3 (counterexample): [masked_nll] is not finite on a loss entry below
    [-eps] (here [-1]) of a present object, nor on a batch where no row has a
    present object ([0 / 0] in the final average). *)
Lemma masked_nll_nonfinite_inputs :
  masked_nll [[-1]] [[1]] None = NonFin /\
  masked_nll [[/ 2]] [[0]] None = NonFin.
Proof.
  split.
  - unfold masked_nll; simpl map.
    rewrite nll_nonfin by (unfold eps_default; lra); reflexivity.
  - unfold masked_nll; simpl map.
    rewrite nll_fin by (unfold eps_default; lra).
    rewrite !nonzero_0; unfold Rsum, fsum, fmul_r; simpl.
    replace (0 + 0) with 0 by ring; rewrite nonzero_0.
    unfold row_div; rewrite nonzero_0.
    unfold fdiv, fmul, fadd, Rmax; cbn -[Req_EM_T Rle_dec]; rdec; reflexivity.
Qed.

(** C3 (amended): when every loss entry is above [-eps] (e.g. non-negative)
    and some batch row has a present object, [masked_nll] is finite, rows
    without a present object contributing [0]. *)
Theorem masked_nll_finite :
  (forall x presence weight,
     Forall (Forall (fun v => - eps_default < v)) x ->
     Exists (Exists (fun q => q <> 0)) presence ->
     exists r, masked_nll x presence weight = Fin r) /\
  (forall (s : R) (pr : list R),
     Forall (fun q => q = 0) pr -> row_div (Fin s) (Rsum (map nonzero pr)) = Fin 0).
Proof.
  split.
  - intros x presence weight Hf Hex; apply masked_nll_fin; assumption.
  - intros s pr Hpr.
    replace (Rsum (map nonzero pr)) with 0.
    + unfold row_div; rewrite nonzero_0.
      unfold fdiv, fmul, Rmax; rdec; f_equal; ring.
    + induction Hpr as [| q pr Hq _ IH]; [reflexivity |].
      subst q; simpl; rewrite nonzero_0; unfold Rsum in *; rewrite <- IH; ring.
Qed.

Lemma masked_nll_finite_witness :
  (exists r, masked_nll [[/ 2; 0]] [[1; 0]] None = Fin r) /\
  row_div (Fin 3) (Rsum (map nonzero [0; 0])) = Fin 0.
Proof.
  split.
  - apply (proj1 masked_nll_finite).
    + repeat constructor; unfold eps_default; lra.
    + apply Exists_cons_hd, Exists_cons_hd; lra.
  - apply (proj2 masked_nll_finite); repeat constructor.
Defined.

(** *** Independence from the padding slots *)

Lemma agree_row_masked (pad_ok : R -> Prop) (pr a1 a2 b1 b2 : list R) :
  (forall v, pad_ok v -> - eps_default < v) ->
  agree_row pad_ok pr a1 a2 -> agree_row (fun _ => True) pr b1 b2 ->
  zip_with fmul_r (zip_with fmul_r (map nll a1) b1) (map nonzero pr) =
  zip_with fmul_r (zip_with fmul_r (map nll a2) b2) (map nonzero pr).
Proof.
  intros Hok; revert a1 a2 b1 b2.
  induction pr as [| q pr IH]; intros [| u1 a1] [| u2 a2] [| v1 b1] [| v2 b2] Ha Hb;
    simpl in *; try contradiction; try reflexivity.
  destruct Ha as [Ha1 [Ha2 Ha3]], Hb as [Hb1 [_ Hb3]].
  rewrite (IH a1 a2 b1 b2 Ha3 Hb3); f_equal.
  destruct (Req_EM_T q 0) as [Hq | Hq].
  - subst q; rewrite nonzero_0.
    destruct (Ha2 eq_refl) as [H1 H2].
    rewrite !nll_fin by auto; unfold fmul_r, fmul; f_equal; ring.
  - rewrite (Ha1 Hq), (Hb1 Hq); reflexivity.
Qed.

Lemma agree_row_masked_unweighted (pad_ok : R -> Prop) (pr a1 a2 : list R) :
  (forall v, pad_ok v -> - eps_default < v) ->
  agree_row pad_ok pr a1 a2 ->
  zip_with fmul_r (map nll a1) (map nonzero pr) =
  zip_with fmul_r (map nll a2) (map nonzero pr).
Proof.
  intros Hok; revert a1 a2.
  induction pr as [| q pr IH]; intros [| u1 a1] [| u2 a2] Ha;
    simpl in *; try contradiction; try reflexivity.
  destruct Ha as [Ha1 [Ha2 Ha3]].
  rewrite (IH a1 a2 Ha3); f_equal.
  destruct (Req_EM_T q 0) as [Hq | Hq].
  - subst q; rewrite nonzero_0.
    destruct (Ha2 eq_refl) as [H1 H2].
    rewrite !nll_fin by auto; unfold fmul_r, fmul; f_equal; ring.
  - rewrite (Ha1 Hq); reflexivity.
Qed.

Lemma masked_rows_agree (p x1 x2 : list (list R)) (w1 w2 : option (list (list R))) :
  agree (fun v => - eps_default < v) p x1 x2 -> agree_weight p w1 w2 ->
  zip_with (zip_with fmul_r)
    (match w1 with
     | Some w => zip_with (zip_with fmul_r) (map (map nll) x1) w
     | None => map (map nll) x1
     end) (map (map nonzero) p) =
  zip_with (zip_with fmul_r)
    (match w2 with
     | Some w => zip_with (zip_with fmul_r) (map (map nll) x2) w
     | None => map (map nll) x2
     end) (map (map nonzero) p).
Proof.
  unfold agree_weight.
  destruct w1 as [w1|], w2 as [w2|]; intros Hx Hw; try contradiction.
  - revert x1 x2 w1 w2 Hx Hw.
    induction p as [| pr p IH]; intros [| r1 x1] [| r2 x2] [| s1 w1] [| s2 w2] Hx Hw;
      simpl in *; try contradiction; try reflexivity.
    destruct Hx as [Hx1 Hx2], Hw as [Hw1 Hw2].
    rewrite (IH x1 x2 w1 w2 Hx2 Hw2).
    rewrite (agree_row_masked _ pr r1 r2 s1 s2 (fun v H => H) Hx1 Hw1); reflexivity.
  - revert x1 x2 Hx.
    induction p as [| pr p IH]; intros [| r1 x1] [| r2 x2] Hx;
      simpl in *; try contradiction; try reflexivity.
    destruct Hx as [Hx1 Hx2].
    rewrite (IH x1 x2 Hx2).
    rewrite (agree_row_masked_unweighted _ pr r1 r2 (fun v H => H) Hx1); reflexivity.
Qed.

(** C10 (counterexample): a padding slot holding [-1] turns the loss of an
    otherwise identical input into a non-finite value. *)
Lemma masked_nll_padding_counterexample :
  masked_nll [[/ 2; -1]] [[1; 0]] None <> masked_nll [[/ 2; / 2]] [[1; 0]] None.
Proof.
  assert (H1 : masked_nll [[/ 2; -1]] [[1; 0]] None = NonFin).
  { unfold masked_nll; simpl map.
    rewrite (nll_nonfin (-1)) by (unfold eps_default; lra).
    rewrite (nll_fin (/ 2)) by (unfold eps_default; lra).
    unfold fmul_r, row_div, fsum; simpl; reflexivity. }
  destruct (masked_nll_fin [[/ 2; / 2]] [[1; 0]] None) as [r Hr].
  - repeat constructor; unfold eps_default; lra.
  - apply Exists_cons_hd, Exists_cons_hd; lra.
  - rewrite H1, Hr; discriminate.
Qed.

(** C10 (amended): [masked_nll] does not depend on the loss and weight values
    at zero-presence positions, provided the loss values there are above
    [-eps] (as the non-negative ratios fed to it are). *)
Theorem masked_nll_padding_independent
  (p x1 x2 : list (list R)) (w1 w2 : option (list (list R))) :
  agree (fun v => - eps_default < v) p x1 x2 ->
  agree_weight p w1 w2 ->
  masked_nll x1 p w1 = masked_nll x2 p w2.
Proof.
  intros Hx Hw; unfold masked_nll; cbv zeta.
  rewrite (masked_rows_agree p x1 x2 w1 w2 Hx Hw); reflexivity.
Qed.

Lemma masked_nll_padding_independent_witness :
  masked_nll [[/ 2; 3]] [[1; 0]] (Some [[2; 7]]) =
  masked_nll [[/ 2; 5]] [[1; 0]] (Some [[2; -4]]).
Proof.
  apply masked_nll_padding_independent; simpl; unfold eps_default;
    repeat split; try intros Hq;
    first [reflexivity | lra | exfalso; apply Hq; reflexivity].
Defined.

(** *** [bbox_to_mask] *)

Lemma Int_part_eq (r : R) (z : Z) : IZR z <= r < IZR z + 1 -> Int_part r = z.
Proof.
  intros [H1 H2]; symmetry; apply Int_part_spec; lra.
Qed.

Lemma Int_part_mono (r1 r2 : R) : r1 <= r2 -> (Int_part r1 <= Int_part r2)%Z.
Proof.
  intros H.
  destruct (base_Int_part r1) as [A1 B1], (base_Int_part r2) as [A2 B2].
  assert (Hlt : IZR (Int_part r1) < IZR (Int_part r2 + 1))
    by (rewrite plus_IZR; lra).
  apply lt_IZR in Hlt; lia.
Qed.

Lemma py_int_IZR (z : Z) : py_int (IZR z) = z.
Proof.
  unfold py_int; destruct (Rle_dec 0 (IZR z)).
  - apply Int_part_eq; lra.
  - rewrite <- opp_IZR, (Int_part_eq _ (- z)) by lra; lia.
Qed.

Lemma torch_round_IZR (z : Z) : torch_round (IZR z) = z.
Proof.
  unfold torch_round; rewrite (Int_part_eq _ z) by lra; rdec; reflexivity.
Qed.

Lemma py_int_mono (r1 r2 : R) : 0 <= r1 <= r2 -> (py_int r1 <= py_int r2)%Z.
Proof.
  intros [H1 H2]; unfold py_int; rdec; apply Int_part_mono; lra.
Qed.

Lemma py_int_nonneg (r : R) : 0 <= r -> (0 <= py_int r)%Z.
Proof.
  intros H; rewrite <- (py_int_IZR 0); apply py_int_mono; simpl; lra.
Qed.

(** The pads of [_bbox_to_mask] are never negative. *)
Lemma bbox_mask_geom_pads (yy : box) (rs0 rs1 : R) :
  let g := bbox_mask_geom yy (rs0, rs1) in
  (0 <= pad_l g)%Z /\ (0 <= pad_r g)%Z /\ (0 <= pad_t g)%Z /\ (0 <= pad_b g)%Z.
Proof.
  simpl; repeat split; apply py_int_nonneg;
    first [apply Rmax_r | pose proof (Rmin_r (box_x yy + box_w yy) rs1);
           pose proof (Rmin_r (box_y yy + box_h yy) rs0); lra].
Qed.

(** A box to the right of the region starts at or after the slice. *)
Lemma bbox_mask_geom_right (yy : box) (rs0 rs1 : R) :
  1 <= rs1 -> rs1 <= box_x yy ->
  let g := bbox_mask_geom yy (rs0, rs1) in (slice_cols g <= pad_l g)%Z.
Proof.
  intros H1 H2; simpl.
  pose proof (py_int_mono 1 rs1 ltac:(lra)) as Hc.
  pose proof (py_int_mono rs1 (Rmax (box_x yy) 0)
                ltac:(pose proof (Rmax_l (box_x yy) 0); lra)) as Hx.
  rewrite py_int_IZR in Hc; lia.
Qed.

Lemma bbox_mask_geom_below (yy : box) (rs0 rs1 : R) :
  1 <= rs0 -> rs0 <= box_y yy ->
  let g := bbox_mask_geom yy (rs0, rs1) in (slice_rows g <= pad_t g)%Z.
Proof.
  intros H1 H2; simpl.
  pose proof (py_int_mono 1 rs0 ltac:(lra)) as Hc.
  pose proof (py_int_mono rs0 (Rmax (box_y yy) 0)
                ltac:(pose proof (Rmax_l (box_y yy) 0); lra)) as Hy.
  rewrite py_int_IZR in Hc; lia.
Qed.

Lemma Forall_firstn' {A : Type} (P : A -> Prop) (n : nat) (l : list A) :
  Forall P l -> Forall P (firstn n l).
Proof.
  intros H; revert n; induction H as [| a l Ha _ IH]; intros [| n]; simpl;
    constructor; auto.
Qed.

Lemma Forall_repeat_eq {A : Type} (x : A) (n : nat) :
  Forall (fun y => y = x) (repeat x n).
Proof. induction n; simpl; constructor; auto. Qed.

Lemma firstn_app_le {A : Type} (n : nat) (l1 l2 : list A) :
  (n <= length l1)%nat -> firstn n (l1 ++ l2) = firstn n l1.
Proof.
  intros H; rewrite firstn_app.
  replace (n - length l1)%nat with 0%nat by lia; simpl; apply app_nil_r.
Qed.

Lemma pad_front_nonneg {A : Type} (k : Z) (z : A) (l : list A) :
  (0 <= k)%Z -> pad_front k z l = repeat z (Z.to_nat k) ++ l.
Proof. intros H; unfold pad_front; destruct (Z.leb_spec 0 k); [reflexivity | lia]. Qed.

Lemma pad_back_nonneg {A : Type} (k : Z) (z : A) (l : list A) :
  (0 <= k)%Z -> pad_back k z l = l ++ repeat z (Z.to_nat k).
Proof. intros H; unfold pad_back; destruct (Z.leb_spec 0 k); [reflexivity | lia]. Qed.

(** With non-negative pads the padded raster is [t] zero rows, [ch] copies
    of the core row, [b] zero rows. *)
Lemma raster_padded (g : mask_geom) :
  (0 <= pad_l g)%Z -> (0 <= pad_r g)%Z -> (0 <= pad_t g)%Z -> (0 <= pad_b g)%Z ->
  let r0 := (repeat 0%Z (Z.to_nat (pad_l g)) ++ repeat 1%Z (Z.to_nat (core_w g)))
              ++ repeat 0%Z (Z.to_nat (pad_r g)) in
  let zr := repeat 0%Z (length (hd [] (repeat r0 (Z.to_nat (core_h g))))) in
  raster g =
  map (firstn (Z.to_nat (slice_cols g)))
      (firstn (Z.to_nat (slice_rows g))
         ((repeat zr (Z.to_nat (pad_t g)) ++ repeat r0 (Z.to_nat (core_h g)))
            ++ repeat zr (Z.to_nat (pad_b g)))).
Proof.
  intros Hl Hr Ht Hb r0 zr; unfold raster.
  rewrite map_repeat, pad_front_nonneg, pad_back_nonneg by assumption.
  fold r0; fold zr.
  rewrite pad_front_nonneg, pad_back_nonneg by assumption; reflexivity.
Qed.

Lemma rows_uniform_hd (l : list (list Z)) (n : nat) :
  Forall (fun row => length row = n) l ->
  Forall (fun row => length row = length (hd [] l)) l.
Proof. intros H; destruct H as [| a l Ha Hl]; constructor; simpl; [reflexivity |].
  eapply Forall_impl; [| exact Hl]; simpl; intros; congruence.
Qed.

Lemma list_min_zero (l : list Z) : Forall (fun z => z = 0%Z) l -> list_min l = 0%Z.
Proof.
  destruct 1 as [| a l Ha Hl]; [reflexivity |]; subst a; simpl.
  induction Hl as [| b l Hb _ IH]; [reflexivity |]; subst b; exact IH.
Qed.

Lemma list_max_zero (l : list Z) : Forall (fun z => z = 0%Z) l -> list_max l = 0%Z.
Proof.
  destruct 1 as [| a l Ha Hl]; [reflexivity |]; subst a; simpl.
  induction Hl as [| b l Hb _ IH]; [reflexivity |]; subst b; exact IH.
Qed.

Lemma Forall_concat' {A : Type} (P : A -> Prop) (l : list (list A)) :
  Forall (Forall P) l -> Forall P (concat l).
Proof. induction 1; simpl; [constructor | apply Forall_app; split; assumption]. Qed.

(** [bytescale] keeps an all-zero image all zero. *)
Lemma bytescale_zero (data : list (list Z)) :
  Forall (Forall (fun z => z = 0%Z)) data ->
  bytescale data = map (map (fun _ => 0%Z)) data.
Proof.
  intros H; unfold bytescale.
  pose proof (Forall_concat' _ _ H) as Hc.
  rewrite (list_min_zero _ Hc), (list_max_zero _ Hc).
  apply map_ext_in; intros row Hrow; apply map_ext_in; intros d Hd.
  rewrite Forall_forall in H; specialize (H row Hrow).
  rewrite Forall_forall in H; rewrite (H d Hd); reflexivity.
Qed.

Lemma zero_image_repeat (img : list (list Z)) (c : nat) :
  Forall (Forall (fun z => z = 0%Z)) img ->
  Forall (fun row => length row = c) img ->
  img = repeat (repeat 0%Z c) (length img).
Proof.
  intros Hz Hl; induction Hz as [| row img Hrow _ IH]; [reflexivity |].
  inversion Hl; subst; simpl; rewrite <- IH by assumption; f_equal.
  clear - Hrow; induction Hrow; simpl; subst; f_equal; assumption.
Qed.

Lemma zero_row_firstn (n m : nat) :
  Forall (fun z => z = 0%Z) (firstn n (repeat 0%Z m)).
Proof. apply Forall_firstn', Forall_repeat_eq. Qed.


Lemma Forall_repeat_P {A : Type} (P : A -> Prop) (x : A) (n : nat) :
  P x -> Forall P (repeat x n).
Proof. intros H; induction n; simpl; constructor; auto. Qed.

(** The raster of a box to the right of or below the slice is all zero, and
    its rows all have the same length. *)
Lemma raster_zero (g : mask_geom) :
  (0 <= pad_l g)%Z -> (0 <= pad_r g)%Z -> (0 <= pad_t g)%Z -> (0 <= pad_b g)%Z ->
  (slice_cols g <= pad_l g)%Z \/ (slice_rows g <= pad_t g)%Z ->
  Forall (Forall (fun z => z = 0%Z)) (raster g) /\
  Forall (fun row => length row = length (hd [] (raster g))) (raster g).
Proof.
  intros Hl Hr Ht Hb Hout.
  rewrite (raster_padded g Hl Hr Ht Hb).
  set (r0 := (repeat 0%Z (Z.to_nat (pad_l g)) ++ repeat 1%Z (Z.to_nat (core_w g)))
               ++ repeat 0%Z (Z.to_nat (pad_r g))).
  set (zr := repeat 0%Z (length (hd [] (repeat r0 (Z.to_nat (core_h g)))))).
  set (padded := (repeat zr (Z.to_nat (pad_t g)) ++ repeat r0 (Z.to_nat (core_h g)))
                   ++ repeat zr (Z.to_nat (pad_b g))).
  assert (Hrows : Forall (fun row => row = zr \/ row = r0) padded).
  { unfold padded; rewrite !Forall_app; repeat split; apply Forall_repeat_P; auto. }
  assert (Hlen : Forall (fun row => length row = length zr) padded).
  { unfold padded; rewrite !Forall_app; repeat split; try (apply Forall_repeat_P; reflexivity).
    unfold zr; destruct (Z.to_nat (core_h g)); simpl; [constructor |].
    constructor; [| apply Forall_repeat_P]; rewrite repeat_length; reflexivity. }
  split.
  - destruct Hout as [Hx | Hy].
    + apply Forall_map, Forall_firstn'.
      eapply Forall_impl; [| exact Hrows]; simpl.
      intros row [-> | ->]; [apply zero_row_firstn |].
      unfold r0; rewrite !firstn_app_le; [apply zero_row_firstn | |];
        rewrite ?length_app, !repeat_length; lia.
    + unfold padded; rewrite !firstn_app_le by (rewrite ?length_app, !repeat_length; lia).
      apply Forall_map.
      eapply Forall_impl; [| apply Forall_firstn', Forall_repeat_eq].
      simpl; intros row ->; apply zero_row_firstn.
  - apply (rows_uniform_hd _ (min (Z.to_nat (slice_cols g)) (length zr))).
    apply Forall_map, Forall_firstn'.
    eapply Forall_impl; [| exact Hlen]; simpl; intros row Hrow.
    rewrite length_firstn, Hrow; reflexivity.
Qed.

Lemma Forall_nth' {A : Type} (P : A -> Prop) (l : list A) (d : A) (n : nat) :
  Forall P l -> P d -> P (nth n l d).
Proof.
  intros H Hd; revert n; induction H as [| a l Ha _ IH]; intros [| n]; simpl; auto.
Qed.

Lemma map_zero_image (l : list (list Z)) :
  Forall (fun row => length row = length (hd [] l)) l ->
  Forall (Forall (fun z => z = 0%Z)) (map (map (fun _ => 0%Z)) l) /\
  Forall (fun row => length row = length (hd [] (map (map (fun _ => 0%Z)) l)))
         (map (map (fun _ => 0%Z)) l).
Proof.
  intros H; split.
  - apply Forall_forall; intros row Hrow; apply in_map_iff in Hrow as [r [<- _]].
    rewrite map_const; apply Forall_repeat_eq.
  - destruct l as [| r l]; simpl; [constructor |].
    inversion H as [| ? ? Hr Hl]; subst.
    constructor; [reflexivity |].
    apply Forall_map; eapply Forall_impl; [| exact Hl]; simpl; intros row Hrow.
    rewrite !length_map; exact Hrow.
Qed.

(** The concrete filter maps an all-zero image to an all-zero image of the
    requested size. *)
Lemma nearest_resample_zero (img : list (list Z)) (size : nat * nat) :
  Forall (Forall (fun z => z = 0%Z)) img ->
  nearest_resample img size = repeat (repeat 0%Z (snd size)) (fst size).
Proof.
  intros H; unfold nearest_resample.
  rewrite <- (length_seq (fst size) 0) at 2; rewrite <- map_const.
  apply map_ext; intros i.
  rewrite <- (length_seq (snd size) 0) at 2; rewrite <- map_const.
  apply map_ext; intros j.
  apply Forall_nth'; [| reflexivity].
  apply Forall_nth'; [exact H | constructor].
Qed.

Section Mask.

(** The resampling filter of PIL's [Image.resize] ([bilinear] in
    [scipy.misc.imresize]), only assumed to map an all-zero image to an
    all-zero image of the requested size. *)
Variable resample : list (list Z) -> nat * nat -> list (list Z).
Hypothesis resample_zero : forall img size,
  Forall (Forall (fun z => z = 0%Z)) img ->
  resample img size = repeat (repeat 0%Z (snd size)) (fst size).

Lemma bbox_to_mask_one_zero (yy : box) (rs0 rs1 : R) (output_size : nat * nat) :
  1 <= rs0 -> 1 <= rs1 -> rs1 <= box_x yy \/ rs0 <= box_y yy ->
  _bbox_to_mask resample yy (rs0, rs1) output_size = zeros output_size.
Proof.
  intros H0 H1 Hout.
  pose proof (bbox_mask_geom_pads yy rs0 rs1) as Hp; cbv zeta in Hp.
  destruct Hp as (Hl & Hr & Ht & Hb).
  assert (Hout' : (slice_cols (bbox_mask_geom yy (rs0, rs1)) <=
                   pad_l (bbox_mask_geom yy (rs0, rs1)))%Z \/
                  (slice_rows (bbox_mask_geom yy (rs0, rs1)) <=
                   pad_t (bbox_mask_geom yy (rs0, rs1)))%Z).
  { destruct Hout; [left; apply bbox_mask_geom_right | right; apply bbox_mask_geom_below];
      assumption. }
  destruct (raster_zero _ Hl Hr Ht Hb Hout') as [Hz Hu].
  unfold _bbox_to_mask.
  rewrite (bytescale_zero _ Hz).
  destruct (map_zero_image _ Hu) as [Hzi Hui].
  set (img := map (map (fun _ => 0%Z)) (raster (bbox_mask_geom yy (rs0, rs1)))) in *.
  assert (Himg : pil_resize resample img output_size =
                 repeat (repeat 0%Z (snd output_size)) (fst output_size)).
  { unfold pil_resize.
    destruct (Nat.eqb (length img) (fst output_size)) eqn:E1;
      destruct (Nat.eqb (length (hd [] img)) (snd output_size)) eqn:E2;
      simpl; try (apply resample_zero; exact Hzi).
    apply Nat.eqb_eq in E1; apply Nat.eqb_eq in E2.
    rewrite <- E1, <- E2; apply zero_image_repeat; assumption. }
  rewrite Himg, !map_repeat; unfold zeros.
  replace (IZR 0 / 255) with 0 by (unfold Rdiv; ring); reflexivity.
Qed.

(** C9 (amended): every box lying to the right of ([x >= regionCols]) or
    below ([y >= regionRows]) a region of at least one pixel per axis gives
    an all-zero raster of shape [output_size]. *)
Theorem bbox_to_mask_outside_zero (bbox : list (box * R * R)) (output_size : nat * nat) :
  Forall (fun '(b, rows, cols) =>
            1 <= rows /\ 1 <= cols /\ (cols <= box_x b \/ rows <= box_y b)) bbox ->
  bbox_to_mask resample bbox output_size = map (fun _ => zeros output_size) bbox.
Proof.
  induction 1 as [| [[b rows] cols] bbox [H0 [H1 Hout]] _ IH]; [reflexivity |].
  simpl; rewrite bbox_to_mask_one_zero by assumption; f_equal; exact IH.
Qed.

End Mask.

Lemma bbox_to_mask_outside_zero_witness :
  bbox_to_mask nearest_resample [(mkbox 5 0 1 1, 3, 3); (mkbox 0 4 2 2, 3, 3)] (2%nat, 2%nat) =
    map (fun _ => zeros (2%nat, 2%nat)) [(mkbox 5 0 1 1, 3, 3); (mkbox 0 4 2 2, 3, 3)].
Proof.
  apply (bbox_to_mask_outside_zero nearest_resample nearest_resample_zero).
  constructor; [cbn; split; [lra | split; [lra | left; lra]] |].
  constructor; [cbn; split; [lra | split; [lra | right; lra]] |].
  constructor.
Defined.

Lemma bbox_mask_geom_left_example :
  bbox_mask_geom (mkbox (-5) 0 2 2) (3, 3) = MaskGeom 1 2 0 6 0 1 3 3.
Proof.
  unfold bbox_mask_geom; cbn [box_x box_y box_w box_h].
  replace (Rmax (- -5) 0) with 5 by (rewrite Rmax_left; lra).
  replace (Rmax (- 0) 0) with 0 by (rewrite Rmax_left; lra).
  replace (Rmax 0 0) with (IZR 0) by (rewrite Rmax_left; lra).
  replace (Rmax (-5) 0) with (IZR 0) by (rewrite Rmax_right; lra).
  replace (2 - 5) with (IZR (-3)) by lra.
  replace (2 - 0) with (IZR 2) by lra.
  replace (Rmin (-5 + 2) 3) with (-3) by (rewrite Rmin_left; lra).
  replace (Rmin (0 + 2) 3) with 2 by (rewrite Rmin_left; lra).
  replace (3 - -3) with (IZR 6) by lra.
  replace (3 - 2) with (IZR 1) by lra.
  replace 3 with (IZR 3) by reflexivity.
  rewrite !torch_round_IZR, !py_int_IZR; reflexivity.
Qed.

(** C9, counterexample: a box entirely to the left of a 3x3 region still
    gives a strip of ones in the first column, since the core is clamped to
    one pixel. *)
Lemma bbox_to_mask_left_counterexample :
  _bbox_to_mask nearest_resample (mkbox (-5) 0 2 2) (3, 3) (3%nat, 3%nat) =
    [[1; 0; 0]; [1; 0; 0]; [0; 0; 0]] /\
  _bbox_to_mask nearest_resample (mkbox (-5) 0 2 2) (3, 3) (3%nat, 3%nat) <>
    zeros (3%nat, 3%nat).
Proof.
  assert (H : _bbox_to_mask nearest_resample (mkbox (-5) 0 2 2) (3, 3) (3%nat, 3%nat) =
              [[1; 0; 0]; [1; 0; 0]; [0; 0; 0]]).
  { unfold _bbox_to_mask; rewrite bbox_mask_geom_left_example.
    replace (pil_resize nearest_resample (bytescale (raster (MaskGeom 1 2 0 6 0 1 3 3)))
               (3%nat, 3%nat))
      with [[255; 0; 0]; [255; 0; 0]; [0; 0; 0]]%Z by (vm_compute; reflexivity).
    cbn [map]; repeat f_equal; lra. }
  split; [exact H |].
  rewrite H; unfold zeros; cbn; intros Heq; injection Heq; intros; lra.
Qed.

(** *** Validity checks over lists *)

Lemma check_ok_iff (l : list box) :
  check_bbox_validness l = Some tt <->
  Forall (fun b => 0 <= box_w b /\ 0 <= box_h b) l.
Proof.
  unfold check_bbox_validness.
  assert (Hf : forall f : box -> R,
             forallb (fun bb => Rgeb (f bb) 0) l = true <-> Forall (fun b => 0 <= f b) l).
  { intros f; rewrite forallb_forall, Forall_forall; unfold Rgeb.
    split; intros H b Hb; specialize (H b Hb); destruct (Rle_dec 0 (f b)); auto; try discriminate; contradiction. }
  transitivity (forallb (fun bb => Rgeb (box_w bb) 0) l = true /\
                forallb (fun bb => Rgeb (box_h bb) 0) l = true).
  - destruct (forallb (fun bb => Rgeb (box_w bb) 0) l),
             (forallb (fun bb => Rgeb (box_h bb) 0) l);
      split; intros H; try discriminate; try destruct H; try discriminate; auto.
  - rewrite (Hf box_w), (Hf box_h); split.
    + intros [A B]; apply Forall_and; assumption.
    + intros H; split; eapply Forall_impl; try exact H; simpl; tauto.
Qed.

Lemma check_some_tt (l : list box) (u : unit) :
  check_bbox_validness l = Some u -> check_bbox_validness l = Some tt.
Proof. destruct u; auto. Qed.

(** *** [masked_nll] keeps a property closed under its arithmetic *)

Section MaskedNllClosed.

Variable P : R -> Prop.
Hypothesis P_0 : P 0.
Hypothesis P_add : forall a b, P a -> P b -> P (a + b).
Hypothesis P_mul : forall a c, P a -> 0 <= c -> P (a * c).
Hypothesis P_div : forall a d, P a -> 0 < d -> P (a / d).


Lemma fsum_finP (l : list fl) : Forall (finP P) l -> finP P (fsum l).
Proof.
  unfold fsum; induction 1 as [| a l [r [-> Hr]] _ [s [Hs HPs]]]; simpl.
  - exists 0; auto.
  - rewrite Hs; eexists; split; [reflexivity | auto].
Qed.

Lemma fmul_r_finP (l : list fl) (w : list R) :
  Forall (finP P) l -> Forall (fun c => 0 <= c) w -> Forall (finP P) (zip_with fmul_r l w).
Proof.
  intros Hl; revert w; induction Hl as [| a l [r [-> Hr]] _ IH];
    intros [| c w] Hw; simpl; constructor; inversion Hw; subst; auto.
  eexists; split; [reflexivity | auto].
Qed.

Lemma row_div_finP (s pi : R) : P s -> finP P (row_div (Fin s) pi).
Proof.
  intros Hs; unfold row_div, fdiv, fmul.
  destruct (Req_EM_T (Rmax pi 1) 0) as [H | _];
    [pose proof (Rmax_r pi 1); lra |].
  eexists; split; [reflexivity |].
  apply P_mul; [apply P_div; [exact Hs | pose proof (Rmax_r pi 1); lra] |].
  apply nonzero_nonneg.
Qed.

Lemma masked_nll_den_pos (presence : list (list R)) :
  Exists (Exists (fun q => q <> 0)) presence ->
  0 < Rsum (map nonzero (map Rsum (map (map nonzero) presence))).
Proof.
  induction 1 as [pr presence Hpr | pr presence _ IH]; simpl.
  - rewrite sum_nonzero_count.
    pose proof (lt_0_INR _ (count_present_pos pr Hpr)) as Hc.
    assert (H1 : nonzero (INR (count_present pr)) = 1)
      by (unfold nonzero, ind, Rneqb; rdec; reflexivity).
    rewrite H1.
    pose proof (Rsum_nonzero_nonneg (map Rsum (map (map nonzero) presence))).
    unfold Rsum in *; lra.
  - pose proof (nonzero_nonneg (Rsum (map nonzero pr))); unfold Rsum in *; lra.
Qed.


Lemma masked_nll_finP (x presence : list (list R)) (weight : option (list (list R))) :
  Forall (Forall (fun v => finP P (nll v))) x ->
  weight_nonneg weight ->
  Exists (Exists (fun q => q <> 0)) presence ->
  finP P (masked_nll x presence weight).
Proof.
  intros Hx0 Hwt Hex.
  assert (Hrows : forall y m, Forall (Forall (finP P)) y -> Forall (Forall (fun c => 0 <= c)) m ->
                   Forall (Forall (finP P)) (zip_with (zip_with fmul_r) y m)).
  { intros y m Hy; revert m; induction Hy as [| r y Hr _ IH]; intros [| mr m] Hm;
      simpl; constructor; inversion Hm; subst; auto using fmul_r_finP. }
  assert (Hx : Forall (Forall (finP P)) (map (map nll) x)).
  { induction Hx0; simpl; constructor; auto; apply Forall_map; assumption. }
  assert (Hw : Forall (Forall (finP P))
                 (match weight with
                  | Some w => zip_with (zip_with fmul_r) (map (map nll) x) w
                  | None => map (map nll) x
                  end)) by (destruct weight; simpl in Hwt; auto).
  assert (Hmask : Forall (Forall (fun c => 0 <= c)) (map (map nonzero) presence)).
  { apply Forall_forall; intros r Hr; apply in_map_iff in Hr as [pr [<- _]].
    apply Forall_forall; intros c Hc; apply in_map_iff in Hc as [q [<- _]].
    apply nonzero_nonneg. }
  pose proof (masked_nll_den_pos presence Hex) as Hden.
  unfold masked_nll; cbv zeta.
  pose proof (Hrows _ _ Hw Hmask) as Hm.
  remember (zip_with (zip_with fmul_r) _ (map (map nonzero) presence)) as y.
  assert (Hs : Forall (finP P) (map fsum y)).
  { clear Heqy; induction Hm; simpl; constructor; auto using fsum_finP. }
  assert (Hn : forall ps, Forall (finP P) (zip_with row_div (map fsum y) ps)).
  { clear Heqy Hm; induction Hs as [| a l [s [Ha HPs]] _ IH]; intros [| q ps]; simpl;
      constructor; auto.
    rewrite Ha; apply row_div_finP; exact HPs. }
  destruct (fsum_finP _ (Hn (map Rsum (map (map nonzero) presence)))) as [t [Ht HPt]].
  rewrite Ht; unfold fdiv.
  destruct (Req_EM_T _ 0) as [H0 | _]; [lra |].
  eexists; split; [reflexivity | auto].
Qed.

End MaskedNllClosed.

(** [nll] is non-negative on [(-eps, 1]] and zero at [1]. *)
Lemma nll_nonneg (v : R) : - eps_default < v <= 1 -> exists r, nll v = Fin r /\ 0 <= r.
Proof.
  intros [H1 H2]; rewrite nll_fin by lra; eexists; split; [reflexivity |].
  unfold negLog_spec; pose proof eps_pos as He.
  assert (Hle : forall a, 0 < a <= 1 -> 0 <= - ln a)
    by (intros a [Ha1 Ha2]; pose proof ln_1; destruct (Req_dec a 1) as [-> | Hne];
         [lra | pose proof (ln_increasing a 1 Ha1 ltac:(lra)); lra]).
  destruct (Rlt_dec v eps_default); apply Hle; unfold eps_default in *; lra.
Qed.

Lemma nll_one : nll 1 = Fin 0.
Proof.
  rewrite nll_fin by (pose proof eps_pos; lra).
  unfold negLog_spec; pose proof eps_pos; unfold eps_default in *; rdec.
  rewrite ln_1; f_equal; ring.
Qed.

Lemma masked_nll_nonneg (x presence : list (list R)) (weight : option (list (list R))) :
  Forall (Forall (fun v => - eps_default < v <= 1)) x ->
  weight_nonneg weight ->
  Exists (Exists (fun q => q <> 0)) presence ->
  exists r, masked_nll x presence weight = Fin r /\ 0 <= r.
Proof.
  intros Hx Hw Hex.
  apply (masked_nll_finP (fun r => 0 <= r));
    [lra | intros; lra | intros; apply Rmult_le_pos; assumption
    | intros a d Ha Hd; unfold Rdiv; apply Rmult_le_pos; [exact Ha | left; apply Rinv_0_lt_compat; exact Hd] | | exact Hw | exact Hex].
  eapply Forall_impl; [| exact Hx]; intros r Hr.
  eapply Forall_impl; [| exact Hr]; intros v Hv; apply nll_nonneg; exact Hv.
Qed.

Lemma masked_nll_ones (x presence : list (list R)) (weight : option (list (list R))) :
  Forall (Forall (fun v => v = 1)) x ->
  weight_nonneg weight ->
  Exists (Exists (fun q => q <> 0)) presence ->
  masked_nll x presence weight = Fin 0.
Proof.
  intros Hx Hw Hex.
  assert (H : finP (fun r => r = 0) (masked_nll x presence weight)).
  { apply masked_nll_finP;
      [reflexivity | intros; subst; ring | intros; subst; ring
      | intros; subst; unfold Rdiv; ring | | exact Hw | exact Hex].
    eapply Forall_impl; [| exact Hx]; intros row Hrow.
    eapply Forall_impl; [| exact Hrow]; intros v ->; rewrite nll_one.
    exists 0; split; reflexivity. }
  destruct H as [r [-> ->]]; reflexivity.
Qed.

(** *** [intersection_within] *)

Lemma area_inter_within1 (bb wi : box) : area (inter_within1 bb wi) = inter1 bb wi.
Proof. reflexivity. Qed.

Lemma map_area_zip (bb wi : list box) :
  map area (zip_with inter_within1 bb wi) = zip_with inter1 bb wi.
Proof.
  revert wi; induction bb as [| b bb IH]; intros [| w wi]; simpl; try reflexivity.
  rewrite IH; reflexivity.
Qed.

(** One axis of [intersection_within]. *)
Lemma side_within (b0 bl w0 wl : R) :
  0 <= wl ->
  let x1 := Rmax b0 w0 in
  let x2 := Rmin (b0 + bl) (w0 + wl) in
  let w := Rmax (x2 - x1) 0 in
  let x := Rmax (x1 - w0) 0 in
  0 <= x /\ 0 <= w <= wl /\ (0 < w -> x + w <= wl).
Proof.
  intros Hwl; cbv zeta; unfold Rmax, Rmin.
  repeat match goal with |- context [Rle_dec ?a ?b] => destruct (Rle_dec a b) end;
    repeat split; intros; lra.
Qed.


Lemma inter_within1_bounds (bb wi : box) :
  0 <= box_w wi -> 0 <= box_h wi -> within_bounds (inter_within1 bb wi) wi.
Proof.
  intros Hw Hh.
  pose proof (side_within (box_x bb) (box_w bb) (box_x wi) (box_w wi) Hw) as Sx.
  pose proof (side_within (box_y bb) (box_h bb) (box_y wi) (box_h wi) Hh) as Sy.
  cbv zeta in Sx, Sy; unfold within_bounds, inter_within1; cbn [box_x box_y box_w box_h].
  tauto.
Qed.

Lemma inter_within1_inside (b w : box) :
  box_x w <= box_x b -> box_x b + box_w b <= box_x w + box_w w ->
  box_y w <= box_y b -> box_y b + box_h b <= box_y w + box_h w ->
  0 <= box_w b -> 0 <= box_h b ->
  inter_within1 b w = mkbox (box_x b - box_x w) (box_y b - box_y w) (box_w b) (box_h b).
Proof.
  intros H1 H2 H3 H4 H5 H6; unfold inter_within1.
  rewrite (Rmax_left (box_x b)), (Rmax_left (box_y b)), (Rmin_left (box_x b + box_w b)),
    (Rmin_left (box_y b + box_h b)) by lra.
  replace (box_x b + box_w b - box_x b) with (box_w b) by ring.
  replace (box_y b + box_h b - box_y b) with (box_h b) by ring.
  rewrite !(Rmax_left _ 0) by lra; reflexivity.
Qed.

(** *** [iou] *)

Lemma area_nonneg (a : box) : 0 <= box_w a -> 0 <= box_h a -> 0 <= area a.
Proof. intros; unfold area; apply Rmult_le_pos; assumption. Qed.

Lemma inter1_le_both (a b : box) :
  0 <= box_w a -> 0 <= box_h a -> 0 <= box_w b -> 0 <= box_h b ->
  0 <= inter1 a b /\ inter1 a b <= area a /\ inter1 a b <= area b.
Proof.
  intros Hwa Hha Hwb Hhb.
  pose proof (inter1_bounds a b Hwa Hha) as [H1 H2].
  pose proof (inter1_bounds b a Hwb Hhb) as [_ H3].
  rewrite inter1_comm in H3; auto.
Qed.

Lemma iou1_range (a b : box) :
  0 <= box_w a -> 0 <= box_h a -> 0 <= box_w b -> 0 <= box_h b ->
  (0 < area a \/ 0 < area b ->
   exists v, fdiv (Fin (inter1 a b)) (Fin (area a + area b - inter1 a b)) = Fin v /\
             0 <= v <= 1) /\
  (area a = 0 -> area b = 0 ->
   fdiv (Fin (inter1 a b)) (Fin (area a + area b - inter1 a b)) = NonFin).
Proof.
  intros Hwa Hha Hwb Hhb.
  pose proof (inter1_le_both a b Hwa Hha Hwb Hhb) as (Hi0 & HiA & HiB).
  pose proof (area_nonneg a Hwa Hha); pose proof (area_nonneg b Hwb Hhb).
  split.
  - intros Hpos; unfold fdiv; rdec.
    eexists; split; [reflexivity |].
    set (D := area a + area b - inter1 a b).
    assert (HD : 0 < D) by (unfold D; destruct Hpos; lra).
    split.
    + unfold Rdiv; apply Rmult_le_pos; [lra | left; apply Rinv_0_lt_compat; lra].
    + apply Rmult_le_reg_r with D; [exact HD |].
      unfold Rdiv; rewrite Rmult_assoc, Rinv_l by lra; unfold D; lra.
  - intros HA HB; unfold fdiv; rdec; reflexivity.
Qed.

(** *** The losses *)

Lemma fins2_of (P : R -> Prop) (x : list (list fl)) :
  Forall (Forall (fun a => exists v, a = Fin v /\ P v)) x ->
  exists xr, fins2 x = Some xr /\ Forall (Forall P) xr.
Proof.
  induction 1 as [| r x Hr _ [xr [Hx HP]]]; [exists []; split; [reflexivity | constructor] |].
  assert (Hrow : exists rr, fins r = Some rr /\ Forall P rr).
  { clear - Hr; induction Hr as [| a r [v [-> Hv]] _ [rr [Hrr HP]]];
      [exists []; split; [reflexivity | constructor] |].
    exists (v :: rr); simpl; rewrite Hrr; split; [reflexivity | constructor; assumption]. }
  destruct Hrow as [rr [Hrr HPr]].
  exists (rr :: xr); simpl; rewrite Hrr, Hx; split; [reflexivity | constructor; assumption].
Qed.

Lemma opts2_of (P : R -> Prop) (x : list (list (option R))) :
  Forall (Forall (fun a => exists v, a = Some v /\ P v)) x ->
  exists xr, opts2 x = Some xr /\ Forall (Forall P) xr.
Proof.
  induction 1 as [| r x Hr _ [xr [Hx HP]]]; [exists []; split; [reflexivity | constructor] |].
  assert (Hrow : exists rr, opts r = Some rr /\ Forall P rr).
  { clear - Hr; induction Hr as [| a r [v [-> Hv]] _ [rr [Hrr HP]]];
      [exists []; split; [reflexivity | constructor] |].
    exists (v :: rr); simpl; rewrite Hrr; split; [reflexivity | constructor; assumption]. }
  destruct Hrow as [rr [Hrr HPr]].
  exists (rr :: xr); simpl; rewrite Hrr, Hx; split; [reflexivity | constructor; assumption].
Qed.

Lemma opts2_map (f : box -> option R) (g : box -> R) (l : list (list box)) :
  Forall (Forall (fun b => f b = Some (g b))) l ->
  opts2 (map (map f) l) = Some (map (map g) l).
Proof.
  induction 1 as [| r l Hr _ IH]; [reflexivity |].
  assert (Hrow : opts (map f r) = Some (map g r)).
  { clear - Hr; induction Hr as [| b r Hb _ IH]; [reflexivity |].
    simpl; rewrite Hb, IH; reflexivity. }
  simpl; rewrite Hrow, IH; reflexivity.
Qed.

Lemma opts2_none (l : list (list (option R))) :
  Exists (Exists (fun a => a = None)) l -> opts2 l = None.
Proof.
  assert (Hrow : forall r, Exists (fun a => a = None) r -> opts r = None).
  { induction 1 as [a r -> | a r _ IH]; simpl; [reflexivity |].
    destruct a; [rewrite IH |]; reflexivity. }
  induction 1 as [r l Hr | r l _ IH]; simpl.
  - rewrite (Hrow r Hr); reflexivity.
  - rewrite IH; destruct (opts r); reflexivity.
Qed.

Lemma Forall2_concat_l {A B : Type} (P : A -> Prop) (Q : A -> B -> Prop)
  (a : list (list A)) (b : list (list B)) :
  (forall x y, Q x y -> P x) ->
  Forall2 (Forall2 Q) a b -> Forall P (concat a).
Proof.
  intros HQ; induction 1 as [| ra rb a b Hr _ IH]; simpl; [constructor |].
  apply Forall_app; split; [| exact IH].
  induction Hr; constructor; eauto.
Qed.

Lemma Forall2_concat_r {A B : Type} (P : B -> Prop) (Q : A -> B -> Prop)
  (a : list (list A)) (b : list (list B)) :
  (forall x y, Q x y -> P y) ->
  Forall2 (Forall2 Q) a b -> Forall P (concat b).
Proof.
  intros HQ; induction 1 as [| ra rb a b Hr _ IH]; simpl; [constructor |].
  apply Forall_app; split; [| exact IH].
  induction Hr; constructor; eauto.
Qed.


Lemma intersection_t_ok (a b : list (list box)) :
  Forall valid_box (concat a) -> Forall valid_box (concat b) ->
  intersection_t a b = Some (zip_with (zip_with inter1) a b).
Proof.
  intros Ha Hb; unfold intersection_t.
  rewrite (proj2 (check_ok_iff (concat a)) Ha), (proj2 (check_ok_iff (concat b)) Hb).
  reflexivity.
Qed.

Lemma intersection_t_none (a b : list (list box)) :
  intersection_t a b = None <->
  check_bbox_validness (concat a) = None \/ check_bbox_validness (concat b) = None.
Proof.
  unfold intersection_t.
  destruct (check_bbox_validness (concat a)), (check_bbox_validness (concat b));
    split; intros H; try discriminate; auto; destruct H; discriminate.
Qed.

Lemma inter1_self (a : box) : 0 <= box_w a -> 0 <= box_h a -> inter1 a a = area a.
Proof.
  intros Hw Hh; unfold inter1, area.
  rewrite !(Rmax_left _ _ (Rle_refl _)), !(Rmin_left _ _ (Rle_refl _)).
  replace (box_x a + box_w a - box_x a) with (box_w a) by ring.
  replace (box_y a + box_h a - box_y a) with (box_h a) by ring.
  rewrite !Rmax_left by lra; reflexivity.
Qed.


Lemma iou_t_ok (a b : list (list box)) :
  Forall valid_box (concat a) -> Forall valid_box (concat b) ->
  iou_t a b = Some (iou_rows a b (zip_with (zip_with inter1) a b)).
Proof. intros Ha Hb; unfold iou_t; rewrite intersection_t_ok by assumption; reflexivity. Qed.

Lemma iou_rows_entries (Q : box -> box -> Prop) (E : fl -> Prop) (a b : list (list box)) :
  (forall x y, Q x y ->
     E (fdiv (Fin (inter1 x y)) (Fin (area x + area y - inter1 x y)))) ->
  Forall2 (Forall2 Q) a b ->
  Forall (Forall E) (iou_rows a b (zip_with (zip_with inter1) a b)).
Proof.
  intros HE; unfold iou_rows; induction 1 as [| ra rb a b Hr _ IH]; simpl; constructor;
    [| exact IH].
  induction Hr as [| x y ra rb Hxy _ IHr]; simpl; constructor; [apply HE; exact Hxy | exact IHr].
Qed.

Lemma intersection_rows_entries (Q : box -> box -> Prop) (E : fl -> Prop)
  (a b : list (list box)) :
  (forall x y, Q x y ->
     E (fdiv (Fin (inter1 x y))
             (Fin (area y * ind (Rneqb (area y) 0) + ind (negb (Rneqb (area y) 0)))))) ->
  Forall2 (Forall2 Q) a b ->
  Forall (Forall E)
    (zip_with (zip_with (fun ii ar =>
                 fdiv (Fin ii) (Fin (ar * ind (Rneqb ar 0) + ind (negb (Rneqb ar 0))))))
              (zip_with (zip_with inter1) a b) (map (map area) b)).
Proof.
  intros HE; induction 1 as [| ra rb a b Hr _ IH]; simpl; constructor; [| exact IH].
  induction Hr as [| x y ra rb Hxy _ IHr]; simpl; constructor; [apply HE; exact Hxy | exact IHr].
Qed.

(** The guarded ratio of [intersection_loss] lies in [[0, 1]]. *)
Lemma intersection_ratio_range (x y : box) :
  valid_box x -> valid_box y ->
  exists v, fdiv (Fin (inter1 x y))
              (Fin (area y * ind (Rneqb (area y) 0) + ind (negb (Rneqb (area y) 0)))) = Fin v /\
            0 <= v <= 1.
Proof.
  intros [Hwx Hhx] [Hwy Hhy].
  pose proof (inter1_le_both x y Hwx Hhx Hwy Hhy) as (Hi0 & _ & HiB).
  pose proof (area_nonneg y Hwy Hhy) as HA.
  unfold fdiv, ind, Rneqb; destruct (Req_EM_T (area y) 0) as [HA0 | HA0]; simpl.
  - rdec; eexists; split; [reflexivity |].
    replace (area y * 0 + 1) with 1 by ring; split; unfold Rdiv; rewrite Rinv_1; lra.
  - rdec; eexists; split; [reflexivity |].
    replace (area y * 1 + 0) with (area y) by ring.
    split.
    + unfold Rdiv; apply Rmult_le_pos; [lra | left; apply Rinv_0_lt_compat; lra].
    + apply Rmult_le_reg_r with (area y); [lra |].
      unfold Rdiv; rewrite Rmult_assoc, Rinv_l by lra; lra.
Qed.

Lemma masked_nll_fl_nonneg (x : list (list fl)) (presence : list (list R)) :
  Forall (Forall (fun a => exists v, a = Fin v /\ 0 <= v <= 1)) x ->
  Exists (Exists (fun q => q <> 0)) presence ->
  exists r, masked_nll_fl x presence None = Fin r /\ 0 <= r.
Proof.
  intros Hx Hex.
  destruct (fins2_of (fun v => 0 <= v <= 1) x Hx) as [xr [Hxr HP]].
  unfold masked_nll_fl; rewrite Hxr.
  apply masked_nll_nonneg; [| exact I | exact Hex].
  eapply Forall_impl; [| exact HP]; intros r Hr.
  eapply Forall_impl; [| exact Hr]; intros v Hv; pose proof eps_pos; lra.
Qed.

Lemma masked_nll_fl_ones (x : list (list fl)) (presence : list (list R)) :
  Forall (Forall (fun a => a = Fin 1)) x ->
  Exists (Exists (fun q => q <> 0)) presence ->
  masked_nll_fl x presence None = Fin 0.
Proof.
  intros Hx Hex.
  assert (Hx' : Forall (Forall (fun a => exists v, a = Fin v /\ v = 1)) x).
  { eapply Forall_impl; [| exact Hx]; intros r Hr.
    eapply Forall_impl; [| exact Hr]; intros a ->; exists 1; auto. }
  destruct (fins2_of (fun v => v = 1) x Hx') as [xr [Hxr HP]].
  unfold masked_nll_fl; rewrite Hxr.
  apply masked_nll_ones; [exact HP | exact I | exact Hex].
Qed.

Lemma masked_nll_weight_one (x presence : list (list R)) :
  Forall (Forall (fun v => - eps_default < v)) x ->
  masked_nll x presence (Some (map (map (fun _ => 1)) x)) = masked_nll x presence None.
Proof.
  intros Hx; unfold masked_nll; cbv zeta iota beta.
  rewrite <- (nll_ones x Hx); reflexivity.
Qed.

(** [T.clamp] of a quotient that is not NaN. *)
Lemma xclamp_range (lo hi : R) (v : xr) :
  lo <= hi -> v <> XNaN -> exists r, xclamp lo hi v = Some r /\ lo <= r <= hi.
Proof.
  intros Hle Hv; destruct v as [r | | |]; simpl.
  - eexists; split; [reflexivity |].
    unfold Rmin, Rmax; repeat destruct Rle_dec; lra.
  - eexists; split; [reflexivity | lra].
  - eexists; split; [reflexivity | lra].
  - contradiction.
Qed.

Lemma xdiv_not_nan (a d : R) : d <> 0 \/ a <> 0 -> xdiv a d <> XNaN.
Proof.
  intros H; unfold xdiv; destruct (Req_EM_T d 0); [| discriminate].
  destruct (Rlt_dec 0 a); [discriminate |]; destruct (Rlt_dec a 0); [discriminate |].
  exfalso; lra.
Qed.

(** *** [check_grads] *)


Lemma check_grads_fold (ps : list gparam) (fail : bool) (printed : list nat) :
  fold_left check_grads_step ps (fail, printed) =
  ((fail || existsb bad_param ps)%bool, printed ++ map fst (filter bad_param ps)).
Proof.
  revert fail printed; induction ps as [| [n [g|]] ps IH]; intros fail printed;
    cbn [fold_left existsb filter map].
  - rewrite orb_false_r, app_nil_r; reflexivity.
  - change (bad_param (n, Some g)) with (anynan_or_anybig g); cbn [check_grads_step].
    destruct (anynan_or_anybig g); rewrite IH; cbn [map].
    + f_equal; [destruct fail; reflexivity | rewrite <- app_assoc; reflexivity].
    + reflexivity.
  - change (bad_param (n, None)) with false; cbn [check_grads_step].
    rewrite IH; reflexivity.
Qed.

Lemma bad_entry_spec (v : fl) :
  bad_entry v = true <-> v = NonFin \/ exists r, v = Fin r /\ 100000 < Rabs r.
Proof.
  destruct v as [r |]; simpl; unfold Rltb.
  - destruct (Rlt_dec 100000 (Rabs r)); split; intros H; auto.
    + right; eexists; split; [reflexivity | assumption].
    + discriminate.
    + destruct H as [H | [r' [H1 H2]]]; [discriminate | injection H1 as <-; contradiction].
  - split; auto.
Qed.

(** *** [torch_normalize_image] *)

Lemma clip_in01 (v : R) : 0 <= v <= 1 -> np_clip v 0 1 = v.
Proof. intros H; unfold np_clip; rewrite Rmax_left, Rmin_left; lra. Qed.

Lemma clip_range (v : R) : 0 <= np_clip v 0 1 <= 1.
Proof. unfold np_clip, Rmin, Rmax; repeat destruct Rle_dec; lra. Qed.

(** ** Further properties of [util.py] *)

Lemma within_bounds_zip (bb wi : list box) :
  Forall valid_box wi ->
  Forall (fun '(c, wb) => within_bounds c wb) (combine (zip_with inter_within1 bb wi) wi).
Proof.
  revert wi; induction bb as [| b bb IH]; intros [| w wi] Hwi; simpl;
    [constructor | constructor | constructor | ].
  inversion Hwi as [| ? ? [Hw Hh] Hrest]; subst.
  constructor; [apply inter_within1_bounds; assumption | apply IH; assumption].
Qed.

(** [intersection_within] fails exactly when [intersection] does, and the
    area [w * h] of each box it returns is the [intersection] of the pair. *)
Theorem intersection_within_area (bbox within : list box) :
  option_map (map area) (intersection_within bbox within) = intersection bbox within.
Proof.
  unfold intersection_within, intersection.
  destruct (check_bbox_validness bbox), (check_bbox_validness within); try reflexivity.
  simpl; rewrite map_area_zip; reflexivity.
Qed.

(** Each box returned by [intersection_within] has non-negative corner and
    sizes, is no wider or taller than its [within] box, and, where it is not
    empty along an axis, ends inside [within] along that axis. *)
Theorem intersection_within_bounds (bbox within r : list box) :
  intersection_within bbox within = Some r ->
  Forall (fun '(c, wb) => within_bounds c wb) (combine r within).
Proof.
  unfold intersection_within; intros H.
  destruct (check_bbox_validness bbox); [| discriminate].
  destruct (check_bbox_validness within) as [u2 |] eqn:E; [| discriminate].
  injection H as <-.
  apply within_bounds_zip.
  apply check_some_tt, check_ok_iff in E.
  eapply Forall_impl; [| exact E]; intros b Hb; exact Hb.
Qed.

Lemma intersection_within_bounds_witness :
  Forall (fun '(c, wb) => within_bounds c wb)
    (combine (zip_with inter_within1 [mkbox 1 1 3 3] [mkbox 0 0 2 2]) [mkbox 0 0 2 2]).
Proof.
  apply (intersection_within_bounds [mkbox 1 1 3 3] [mkbox 0 0 2 2]).
  unfold intersection_within; rewrite !check_single by (simpl; lra); reflexivity.
Defined.

(** A valid box lying inside its [within] box comes back from
    [intersection_within] unchanged in size, moved into [within]'s
    coordinates. *)
Theorem intersection_within_inside (bbox within : list box) :
  Forall2 (fun b w =>
             0 <= box_w b /\ 0 <= box_h b /\
             box_x w <= box_x b /\ box_x b + box_w b <= box_x w + box_w w /\
             box_y w <= box_y b /\ box_y b + box_h b <= box_y w + box_h w) bbox within ->
  intersection_within bbox within =
  Some (zip_with (fun b w => mkbox (box_x b - box_x w) (box_y b - box_y w) (box_w b) (box_h b))
                 bbox within).
Proof.
  intros H; unfold intersection_within.
  assert (Hb : Forall valid_box bbox).
  { induction H as [| b w bb wi (H1 & H2 & _) _ IH];
      [constructor | constructor; [split |]; assumption]. }
  assert (Hw : Forall valid_box within).
  { clear Hb; induction H as [| b w bb wi (H1 & H2 & H3 & H4 & H5 & H6) _ IH];
      [constructor | constructor; [split; lra | assumption]]. }
  rewrite (proj2 (check_ok_iff bbox) Hb), (proj2 (check_ok_iff within) Hw).
  f_equal; clear Hb Hw.
  induction H as [| b w bb wi (H1 & H2 & H3 & H4 & H5 & H6) _ IH]; simpl; [reflexivity |].
  rewrite inter_within1_inside by assumption; f_equal; exact IH.
Qed.

Lemma intersection_within_inside_witness :
  intersection_within [mkbox 1 2 3 4] [mkbox 0 0 10 10] =
  Some [mkbox (1 - 0) (2 - 0) 3 4].
Proof.
  apply (intersection_within_inside [mkbox 1 2 3 4] [mkbox 0 0 10 10]).
  constructor; [| constructor]; simpl; repeat split; lra.
Defined.

(** For two valid boxes of which at least one has a positive area, [iou]
    is a finite number in [[0, 1]]; for two boxes of area [0] it is [0 / 0],
    NaN. *)
Theorem iou_range (a b : box) :
  valid_box a -> valid_box b ->
  (0 < area a \/ 0 < area b -> exists v, iou [a] [b] = Some [Fin v] /\ 0 <= v <= 1) /\
  (area a = 0 -> area b = 0 -> iou [a] [b] = Some [NonFin]).
Proof.
  intros [Hwa Hha] [Hwb Hhb].
  unfold iou, intersection; rewrite !check_single by assumption; cbn [combine zip_with fst snd].
  destruct (iou1_range a b Hwa Hha Hwb Hhb) as [H1 H2]; split.
  - intros Hpos; destruct (H1 Hpos) as [v [Hv Hr]]; exists v; rewrite Hv; auto.
  - intros HA HB; rewrite (H2 HA HB); reflexivity.
Qed.

Lemma iou_range_witness :
  exists v, iou [mkbox 0 0 2 2] [mkbox 1 1 2 2] = Some [Fin v] /\ 0 <= v <= 1.
Proof.
  apply (iou_range (mkbox 0 0 2 2) (mkbox 1 1 2 2));
    [split; simpl; lra | split; simpl; lra | left; unfold area; simpl; lra].
Defined.

(** For valid boxes of the same shape, each pair with a box of positive
    area, and at least one present object, [iou_loss] is a finite
    non-negative number. *)
Theorem iou_loss_nonneg (a b : list (list box)) (presence : list (list R)) :
  Forall2 (Forall2 (fun x y => valid_box x /\ valid_box y /\ (0 < area x \/ 0 < area y))) a b ->
  Exists (Exists (fun q => q <> 0)) presence ->
  exists r, iou_loss a b presence = Some (Fin r) /\ 0 <= r.
Proof.
  intros H Hex.
  unfold iou_loss; rewrite iou_t_ok.
  - destruct (masked_nll_fl_nonneg (iou_rows a b (zip_with (zip_with inter1) a b)) presence)
      as [r [Hr Hr0]]; [| exact Hex | exists r; rewrite Hr; auto].
    apply (iou_rows_entries
             (fun x y => valid_box x /\ valid_box y /\ (0 < area x \/ 0 < area y)));
      [| exact H].
    intros x y ([Hwx Hhx] & [Hwy Hhy] & Hpos).
    exact (proj1 (iou1_range x y Hwx Hhx Hwy Hhy) Hpos).
  - eapply Forall2_concat_l; [| exact H]; simpl; tauto.
  - eapply Forall2_concat_r; [| exact H]; simpl; tauto.
Qed.

Lemma iou_loss_nonneg_witness :
  exists r, iou_loss [[mkbox 0 0 2 2]] [[mkbox 1 1 2 2]] [[1]] = Some (Fin r) /\ 0 <= r.
Proof.
  apply iou_loss_nonneg.
  - constructor; [constructor; [| constructor] | constructor].
    split; [split; simpl; lra | split; [split; simpl; lra | left; unfold area; simpl; lra]].
  - apply Exists_cons_hd, Exists_cons_hd; lra.
Defined.

Lemma Forall2_self {A : Type} (P : A -> Prop) (l : list (list A)) :
  Forall (Forall P) l -> Forall2 (Forall2 (fun x y => x = y /\ P x)) l l.
Proof.
  induction 1 as [| r l Hr _ IH]; constructor; [| exact IH].
  induction Hr; constructor; auto.
Qed.

Lemma Forall_concat_of {A : Type} (P : A -> Prop) (l : list (list A)) :
  Forall (Forall P) l -> Forall P (concat l).
Proof. induction 1; simpl; [constructor | apply Forall_app; auto]. Qed.

(** A prediction equal to its target, all boxes of positive area, has
    [iou_loss] [0] as soon as one object is present. *)
Theorem iou_loss_self (a : list (list box)) (presence : list (list R)) :
  Forall (Forall (fun x => valid_box x /\ 0 < area x)) a ->
  Exists (Exists (fun q => q <> 0)) presence ->
  iou_loss a a presence = Some (Fin 0).
Proof.
  intros H Hex.
  assert (Hv : Forall valid_box (concat a)).
  { apply Forall_concat_of; eapply Forall_impl; [| exact H]; intros r Hr.
    eapply Forall_impl; [| exact Hr]; simpl; tauto. }
  unfold iou_loss; rewrite iou_t_ok by assumption; f_equal.
  apply masked_nll_fl_ones; [| exact Hex].
  apply (iou_rows_entries (fun x y => x = y /\ (valid_box x /\ 0 < area x)));
    [| apply Forall2_self; exact H].
  intros x y (<- & [Hw Hh] & Hpos).
  rewrite inter1_self by assumption; unfold fdiv; rdec.
  f_equal; field; lra.
Qed.

Lemma iou_loss_self_witness :
  iou_loss [[mkbox 0 0 2 3]] [[mkbox 0 0 2 3]] [[1]] = Some (Fin 0).
Proof.
  apply iou_loss_self.
  - constructor; [constructor; [| constructor] | constructor].
    split; [split; simpl; lra | unfold area; simpl; lra].
  - apply Exists_cons_hd, Exists_cons_hd; lra.
Defined.

(** [intersection_loss] fails exactly when a box tensor has a negative
    width or height; on valid boxes with a present object it is a finite
    non-negative number, also for targets of area [0] (whose divisor is
    replaced by [1]). *)
Theorem intersection_loss_nonneg (pred target : list (list box)) (presence : list (list R)) :
  (intersection_loss pred target presence = None <->
   check_bbox_validness (concat pred) = None \/ check_bbox_validness (concat target) = None) /\
  (Forall2 (Forall2 (fun x y => valid_box x /\ valid_box y)) pred target ->
   Exists (Exists (fun q => q <> 0)) presence ->
   exists r, intersection_loss pred target presence = Some (Fin r) /\ 0 <= r).
Proof.
  split.
  - rewrite <- intersection_t_none; unfold intersection_loss; cbv zeta.
    destruct (intersection_t pred target); split; intros H; try discriminate; reflexivity.
  - intros H Hex; unfold intersection_loss; cbv zeta.
    rewrite intersection_t_ok.
    + destruct (masked_nll_fl_nonneg
                  (zip_with (zip_with (fun ii ar =>
                     fdiv (Fin ii) (Fin (ar * ind (Rneqb ar 0) + ind (negb (Rneqb ar 0))))))
                     (zip_with (zip_with inter1) pred target) (map (map area) target))
                  presence) as [r [Hr Hr0]]; [| exact Hex | exists r; rewrite Hr; auto].
      apply (intersection_rows_entries (fun x y => valid_box x /\ valid_box y));
        [| exact H].
      intros x y [Hx Hy]; exact (intersection_ratio_range x y Hx Hy).
    + eapply Forall2_concat_l; [| exact H]; simpl; tauto.
    + eapply Forall2_concat_r; [| exact H]; simpl; tauto.
Qed.

Lemma intersection_loss_nonneg_witness :
  exists r, intersection_loss [[mkbox 0 0 2 2]] [[mkbox 5 5 0 0]] [[1]] = Some (Fin r) /\
            0 <= r.
Proof.
  apply (intersection_loss_nonneg [[mkbox 0 0 2 2]] [[mkbox 5 5 0 0]] [[1]]).
  - constructor; [constructor; [| constructor] | constructor].
    split; split; simpl; lra.
  - apply Exists_cons_hd, Exists_cons_hd; lra.
Defined.

(** A prediction equal to its target, all target boxes of positive area,
    has [intersection_loss] [0] as soon as one object is present. *)
Theorem intersection_loss_self (a : list (list box)) (presence : list (list R)) :
  Forall (Forall (fun x => valid_box x /\ 0 < area x)) a ->
  Exists (Exists (fun q => q <> 0)) presence ->
  intersection_loss a a presence = Some (Fin 0).
Proof.
  intros H Hex.
  assert (Hv : Forall valid_box (concat a)).
  { apply Forall_concat_of; eapply Forall_impl; [| exact H]; intros r Hr.
    eapply Forall_impl; [| exact Hr]; simpl; tauto. }
  unfold intersection_loss; cbv zeta; rewrite intersection_t_ok by assumption; f_equal.
  apply masked_nll_fl_ones; [| exact Hex].
  apply (intersection_rows_entries (fun x y => x = y /\ (valid_box x /\ 0 < area x)));
    [| apply Forall2_self; exact H].
  intros x y (<- & [Hw Hh] & Hpos).
  rewrite inter1_self by assumption.
  assert (Hn : Rneqb (area x) 0 = true) by (unfold Rneqb; rdec; reflexivity).
  rewrite Hn; unfold ind, negb, fdiv.
  replace (area x * 1 + 0) with (area x) by ring; rdec; f_equal; field; lra.
Qed.

Lemma intersection_loss_self_witness :
  intersection_loss [[mkbox 0 0 2 3]] [[mkbox 0 0 2 3]] [[1]] = Some (Fin 0).
Proof.
  apply intersection_loss_self.
  - constructor; [constructor; [| constructor] | constructor].
    split; [split; simpl; lra | unfold area; simpl; lra].
  - apply Exists_cons_hd, Exists_cons_hd; lra.
Defined.

Lemma Forall_Forall_all {A : Type} (P : A -> Prop) (l : list (list A)) :
  (forall x, P x) -> Forall (Forall P) l.
Proof. intros H; apply Forall_forall; intros r _; apply Forall_forall; auto. Qed.

Lemma Forall_Forall_map {A B : Type} (P : B -> Prop) (f : A -> B) (l : list (list A)) :
  Forall (Forall (fun x => P (f x))) l -> Forall (Forall P) (map (map f) l).
Proof.
  intros H; apply Forall_map; eapply Forall_impl; [| exact H]; intros r Hr.
  apply Forall_map; exact Hr.
Qed.

Lemma map_map2 {A B C : Type} (f : B -> C) (g : A -> B) (l : list (list A)) :
  map (map f) (map (map g) l) = map (map (fun x => f (g x))) l.
Proof. rewrite map_map; apply map_ext; intros r; apply map_map. Qed.

Lemma ratio01 (a d : R) : 0 < d -> 0 <= a <= d -> 0 <= a / d <= 1.
Proof.
  intros Hd Ha; split.
  - unfold Rdiv; apply Rmult_le_pos; [lra | left; apply Rinv_0_lt_compat; lra].
  - apply Rmult_le_reg_r with d; [exact Hd |].
    unfold Rdiv; rewrite Rmult_assoc, Rinv_l by lra; lra.
Qed.

(** [area_loss] is a finite non-negative number when an object is present
    and the ratio [area / (nrows * ncols)] is never [0 / 0]: a ratio that
    overflows to an infinity is clamped back into [[0, 1]] and the weight
    into [[1, 10]]. A zero image size together with a prediction of area
    [0] gives NaN. *)
Theorem area_loss_finite (pred : list (list box)) (nrows ncols : R)
  (presence : list (list R)) :
  ((nrows * ncols <> 0 \/ Forall (Forall (fun b => area b <> 0)) pred) ->
   Exists (Exists (fun q => q <> 0)) presence ->
   exists r, area_loss pred nrows ncols presence = Fin r /\ 0 <= r) /\
  (nrows * ncols = 0 -> Exists (Exists (fun b => area b = 0)) pred ->
   area_loss pred nrows ncols presence = NonFin).
Proof.
  split.
  - intros Hnz Hex.
    assert (Hnn : Forall (Forall (fun b => xdiv (area b) (nrows * ncols) <> XNaN)) pred).
    { destruct Hnz as [Hd | Ha].
      - apply Forall_Forall_all; intros b; apply xdiv_not_nan; left; exact Hd.
      - eapply Forall_impl; [| exact Ha]; intros r Hr.
        eapply Forall_impl; [| exact Hr]; intros b Hb; apply xdiv_not_nan; right; exact Hb. }
    unfold area_loss; cbv zeta.
    destruct (opts2_of (fun w => 1 <= w <= 10)
                (map (map (xclamp 1 10)) (map (map (fun b => xdiv (area b) (nrows * ncols))) pred)))
      as [W [HW HPW]].
    { rewrite map_map2; apply Forall_Forall_map.
      eapply Forall_impl; [| exact Hnn]; intros r Hr.
      eapply Forall_impl; [| exact Hr]; intros b Hb; apply xclamp_range; [lra | exact Hb]. }
    destruct (opts2_of (fun v => 0 <= v <= 1)
                (map (map (xclamp 0 1)) (map (map (fun b => xdiv (area b) (nrows * ncols))) pred)))
      as [Rt [HR HPR]].
    { rewrite map_map2; apply Forall_Forall_map.
      eapply Forall_impl; [| exact Hnn]; intros r Hr.
      eapply Forall_impl; [| exact Hr]; intros b Hb; apply xclamp_range; [lra | exact Hb]. }
    rewrite HW, HR.
    apply masked_nll_nonneg; [| | exact Hex].
    + apply Forall_Forall_map.
      eapply Forall_impl; [| exact HPR]; intros r Hr.
      eapply Forall_impl; [| exact Hr]; intros v Hv; pose proof eps_pos; lra.
    + simpl; eapply Forall_impl; [| exact HPW]; intros r Hr.
      eapply Forall_impl; [| exact Hr]; intros v Hv; lra.
  - intros Hd Hex; unfold area_loss; cbv zeta.
    rewrite opts2_none; [reflexivity |].
    rewrite map_map2.
    apply Exists_map; eapply Exists_impl; [| exact Hex]; intros r Hr.
    apply Exists_map; eapply Exists_impl; [| exact Hr]; intros b Hb.
    unfold xdiv; rewrite Hb; rdec; reflexivity.
Qed.

Lemma area_loss_finite_witness :
  exists r, area_loss [[mkbox 0 0 20 20]] 0 0 [[1]] = Fin r /\ 0 <= r.
Proof.
  apply (area_loss_finite [[mkbox 0 0 20 20]] 0 0 [[1]]).
  - right; constructor; [constructor; [unfold area; simpl; lra | constructor] | constructor].
  - apply Exists_cons_hd, Exists_cons_hd; lra.
Defined.

(** With a positive image size and every predicted area in
    [[0, nrows * ncols]], the weight of [area_loss] is [1] everywhere and the
    loss is the unweighted masked mean of [negLog(1 - area / (nrows * ncols))];
    predictions of area [0] then cost [0]. *)
Theorem area_loss_within_image (pred : list (list box)) (nrows ncols : R)
  (presence : list (list R)) :
  0 < nrows * ncols ->
  Forall (Forall (fun b => 0 <= area b <= nrows * ncols)) pred ->
  area_loss pred nrows ncols presence =
    masked_nll (map (map (fun b => 1 - area b / (nrows * ncols))) pred) presence None /\
  (Forall (Forall (fun b => area b = 0)) pred ->
   Exists (Exists (fun q => q <> 0)) presence ->
   area_loss pred nrows ncols presence = Fin 0).
Proof.
  intros Hd Hin.
  assert (Heq : area_loss pred nrows ncols presence =
                masked_nll (map (map (fun b => 1 - area b / (nrows * ncols))) pred) presence None).
  { unfold area_loss; cbv zeta.
    rewrite !map_map2.
    rewrite (opts2_map (fun b => xclamp 1 10 (xdiv (area b) (nrows * ncols))) (fun _ => 1)).
    2: { eapply Forall_impl; [| exact Hin]; intros r Hr.
         eapply Forall_impl; [| exact Hr]; intros b Hb.
         pose proof (ratio01 _ _ Hd Hb); unfold xdiv, xclamp.
         destruct (Req_EM_T (nrows * ncols) 0) as [He | _]; [rewrite He in Hd; lra |].
         rewrite Rmax_right, Rmin_left by lra; reflexivity. }
    rewrite (opts2_map (fun b => xclamp 0 1 (xdiv (area b) (nrows * ncols)))
                       (fun b => area b / (nrows * ncols))).
    2: { eapply Forall_impl; [| exact Hin]; intros r Hr.
         eapply Forall_impl; [| exact Hr]; intros b Hb.
         pose proof (ratio01 _ _ Hd Hb); unfold xdiv, xclamp.
         destruct (Req_EM_T (nrows * ncols) 0) as [He | _]; [rewrite He in Hd; lra |].
         rewrite Rmax_left, Rmin_left by lra; reflexivity. }
    rewrite map_map2.
    rewrite <- (map_map2 (fun _ => 1) (fun b => 1 - area b / (nrows * ncols)) pred).
    apply masked_nll_weight_one.
    apply Forall_Forall_map; eapply Forall_impl; [| exact Hin]; intros r Hr.
    eapply Forall_impl; [| exact Hr]; intros b Hb.
    pose proof (ratio01 _ _ Hd Hb); pose proof eps_pos; lra. }
  split; [exact Heq |].
  intros Hz Hex; rewrite Heq.
  apply masked_nll_ones; [| exact I | exact Hex].
  apply Forall_Forall_map; eapply Forall_impl; [| exact Hz]; intros r Hr.
  eapply Forall_impl; [| exact Hr]; intros b Hb.
  rewrite Hb; unfold Rdiv; ring.
Qed.

Lemma area_loss_within_image_witness :
  area_loss [[mkbox 0 0 2 2]] 4 4 [[1]] =
    masked_nll [[1 - area (mkbox 0 0 2 2) / (4 * 4)]] [[1]] None.
Proof.
  apply (area_loss_within_image [[mkbox 0 0 2 2]] 4 4 [[1]]).
  - lra.
  - constructor; [constructor; [unfold area; simpl; lra | constructor] | constructor].
Defined.

(** [check_grads] returns [True] exactly when some defined gradient has a
    NaN or infinite entry or an entry of absolute value above [1e+5], and
    prints the names of exactly those parameters, in order. *)
Theorem check_grads_reports (named_params : list gparam) :
  (fst (check_grads named_params) = true <->
   Exists (fun p => exists g, snd p = Some g /\
             Exists (fun v => v = NonFin \/ exists r, v = Fin r /\ 100000 < Rabs r) g)
          named_params) /\
  snd (check_grads named_params) = map fst (filter bad_param named_params).
Proof.
  unfold check_grads; rewrite check_grads_fold; simpl; split; [| reflexivity].
  rewrite existsb_exists, Exists_exists; split.
  - intros [p [Hin Hp]]; exists p; split; [exact Hin |].
    unfold bad_param in Hp; destruct (snd p) as [g |]; [| discriminate].
    exists g; split; [reflexivity |].
    unfold anynan_or_anybig in Hp; apply existsb_exists in Hp as [v [Hv Hb]].
    apply Exists_exists; exists v; split; [exact Hv | apply bad_entry_spec; exact Hb].
  - intros [p [Hin [g [Hg Hex]]]]; exists p; split; [exact Hin |].
    unfold bad_param; rewrite Hg; unfold anynan_or_anybig; apply existsb_exists.
    apply Exists_exists in Hex as [v [Hv Hb]]; exists v; split;
      [exact Hv | apply bad_entry_spec; exact Hb].
Qed.





(** [torch_unnormalize_image] undoes [torch_normalize_image] on an image
    with every channel in [[0, 1]], always returns channels in [[0, 1]], and
    is undone by [torch_normalize_image] where it does not clip. *)
Theorem normalize_image_roundtrip :
  (forall x, Forall rgb_in01 x ->
     torch_unnormalize_image (torch_normalize_image x) = x) /\
  (forall x, Forall rgb_in01 (torch_unnormalize_image x)) /\
  (forall y, Forall (fun p => rgb_in01 (rgb_map2 Rplus (rgb_map2 Rmult p img_std) img_mean)) y ->
     torch_normalize_image (torch_unnormalize_image y) = y).
Proof.
  split; [| split].
  - intros x Hx; unfold torch_unnormalize_image, torch_normalize_image.
    rewrite map_map; rewrite <- (map_id x) at 2; apply map_ext_in.
    intros [r g b] Hin; rewrite Forall_forall in Hx; specialize (Hx _ Hin).
    destruct Hx as (Hr & Hg & Hb); simpl in *.
    unfold rgb_map, rgb_map2, img_mean, img_std; simpl.
    f_equal; rewrite clip_in01; try field; split;
      match goal with |- context [?v / ?s * ?s] =>
        replace (v / s * s) with v by field end; lra.
  - intros x; unfold torch_unnormalize_image; apply Forall_forall.
    intros p Hp; apply in_map_iff in Hp as [q [<- _]].
    unfold rgb_in01, rgb_map; simpl; repeat split; apply clip_range.
  - intros y Hy; unfold torch_unnormalize_image, torch_normalize_image.
    rewrite map_map; rewrite <- (map_id y) at 2; apply map_ext_in.
    intros [r g b] Hin; rewrite Forall_forall in Hy; specialize (Hy _ Hin).
    unfold rgb_in01, rgb_map2, img_mean, img_std in Hy; simpl in Hy.
    destruct Hy as (Hr & Hg & Hb).
    unfold rgb_map, rgb_map2, img_mean, img_std; simpl.
    rewrite !clip_in01 by assumption; f_equal; field.
Qed.

Lemma normalize_image_roundtrip_witness :
  torch_unnormalize_image (torch_normalize_image [RGB 0 (/ 2) 1]) = [RGB 0 (/ 2) 1].
Proof.
  apply (proj1 normalize_image_roundtrip).
  constructor; [unfold rgb_in01; simpl; lra | constructor].
Defined.

(** *** [_bbox_to_mask]: range, full boxes and integer boxes *)

Lemma Qfloor_half_range (q : Q) :
  (0 <= q)%Q -> (q <= 255 # 1)%Q -> (0 <= Qfloor (q + (1 # 2)) <= 255)%Z.
Proof.
  intros H0 H1; split.
  - change 0%Z with (Qfloor (0 + (1 # 2))).
    apply Qfloor_resp_le, Qplus_le_compat; [exact H0 | apply Qle_refl].
  - change 255%Z with (Qfloor ((255 # 1) + (1 # 2))).
    apply Qfloor_resp_le, Qplus_le_compat; [exact H1 | apply Qle_refl].
Qed.

(** [bytescale] returns bytes. *)
Lemma bytescale_range (data : list (list Z)) :
  Forall (Forall (fun z => (0 <= z <= 255)%Z)) (bytescale data).
Proof.
  unfold bytescale; cbv zeta.
  apply Forall_forall; intros row Hrow; apply in_map_iff in Hrow as [r [<- _]].
  apply Forall_forall; intros z Hz; apply in_map_iff in Hz as [d [<- _]].
  apply Qfloor_half_range; [apply Q.le_max_l |].
  apply Q.max_lub; [discriminate | apply Q.le_min_r].
Qed.

Lemma fold_min_const (c : Z) (l : list Z) :
  Forall (fun z => z = c) l -> fold_left Z.min l c = c.
Proof. induction 1 as [| a l -> _ IH]; simpl; [reflexivity |]; rewrite Z.min_id; exact IH. Qed.

Lemma fold_max_const (c : Z) (l : list Z) :
  Forall (fun z => z = c) l -> fold_left Z.max l c = c.
Proof. induction 1 as [| a l -> _ IH]; simpl; [reflexivity |]; rewrite Z.max_id; exact IH. Qed.

(** [bytescale] maps a constant image to zeros. *)
Lemma bytescale_const (data : list (list Z)) (c : Z) :
  Forall (Forall (fun z => z = c)) data ->
  bytescale data = map (map (fun _ => 0%Z)) data.
Proof.
  intros H; unfold bytescale; cbv zeta.
  pose proof (Forall_concat' _ _ H) as Hc.
  apply map_ext_in; intros row Hrow; apply map_ext_in; intros d Hd.
  assert (Hin : In d (concat data)) by (apply in_concat; exists row; split; assumption).
  rewrite Forall_forall in Hc; rewrite (Hc d Hin).
  destruct (concat data) as [| a l] eqn:E; [destruct Hin |].
  assert (Ha : a = c) by (apply Hc; left; reflexivity); subst a.
  assert (Hl : Forall (fun z => z = c) l)
    by (apply Forall_forall; intros z Hz; apply Hc; right; exact Hz).
  unfold list_min, list_max; rewrite fold_min_const, fold_max_const by exact Hl.
  rewrite Z.sub_diag; reflexivity.
Qed.

Lemma fold_min_lb (lb a : Z) (l : list Z) :
  (lb <= a)%Z -> Forall (fun z => lb <= z)%Z l -> (lb <= fold_left Z.min l a)%Z.
Proof.
  intros Ha Hl; revert a Ha; induction Hl as [| b l Hb _ IH]; intros a Ha; simpl;
    [exact Ha | apply IH; lia].
Qed.

Lemma fold_min_init (l : list Z) (a : Z) : (fold_left Z.min l a <= a)%Z.
Proof.
  revert a; induction l as [| b l IH]; intros a; simpl; [lia |].
  specialize (IH (Z.min a b)); lia.
Qed.

Lemma fold_min_in (l : list Z) (a z : Z) : In z (a :: l) -> (fold_left Z.min l a <= z)%Z.
Proof.
  revert a; induction l as [| b l IH]; intros a Hz; simpl.
  - destruct Hz as [-> | []]; lia.
  - destruct Hz as [-> | [-> | Hz]].
    + pose proof (fold_min_init l (Z.min z b)); lia.
    + pose proof (fold_min_init l (Z.min a z)); lia.
    + apply IH; right; exact Hz.
Qed.

Lemma fold_max_ub (ub a : Z) (l : list Z) :
  (a <= ub)%Z -> Forall (fun z => z <= ub)%Z l -> (fold_left Z.max l a <= ub)%Z.
Proof.
  intros Ha Hl; revert a Ha; induction Hl as [| b l Hb _ IH]; intros a Ha; simpl;
    [exact Ha | apply IH; lia].
Qed.

Lemma fold_max_init (l : list Z) (a : Z) : (a <= fold_left Z.max l a)%Z.
Proof.
  revert a; induction l as [| b l IH]; intros a; simpl; [lia |].
  specialize (IH (Z.max a b)); lia.
Qed.

Lemma fold_max_in (l : list Z) (a z : Z) : In z (a :: l) -> (z <= fold_left Z.max l a)%Z.
Proof.
  revert a; induction l as [| b l IH]; intros a Hz; simpl.
  - destruct Hz as [-> | []]; lia.
  - destruct Hz as [-> | [-> | Hz]].
    + pose proof (fold_max_init l (Z.max z b)); lia.
    + pose proof (fold_max_init l (Z.max a z)); lia.
    + apply IH; right; exact Hz.
Qed.

(** [bytescale] of a 0/1 image holding both values scales 1 to 255. *)
Lemma bytescale_01 (data : list (list Z)) :
  Forall (Forall (fun z => z = 0 \/ z = 1)%Z) data ->
  In 0%Z (concat data) -> In 1%Z (concat data) ->
  bytescale data = map (map (Z.mul 255)) data.
Proof.
  intros H H0 H1; unfold bytescale; cbv zeta.
  pose proof (Forall_concat' _ _ H) as Hc; rewrite Forall_forall in Hc.
  assert (Hmin : list_min (concat data) = 0%Z).
  { destruct (concat data) as [| a l]; [destruct H0 |]; unfold list_min.
    apply Z.le_antisymm; [apply fold_min_in; exact H0 |].
    apply fold_min_lb; [destruct (Hc a (or_introl eq_refl)); lia |].
    apply Forall_forall; intros z Hz; destruct (Hc z (or_intror Hz)); lia. }
  assert (Hmax : list_max (concat data) = 1%Z).
  { destruct (concat data) as [| a l]; [destruct H0 |]; unfold list_max.
    apply Z.le_antisymm; [| apply fold_max_in; exact H1].
    apply fold_max_ub; [destruct (Hc a (or_introl eq_refl)); lia |].
    apply Forall_forall; intros z Hz; destruct (Hc z (or_intror Hz)); lia. }
  rewrite Hmin, Hmax.
  apply map_ext_in; intros row Hrow; apply map_ext_in; intros d Hd.
  assert (Hin : In d (concat data)) by (apply in_concat; exists row; split; assumption).
  destruct (Hc d Hin) as [-> | ->]; reflexivity.
Qed.

Lemma map_seq_const {A : Type} (f : nat -> A) (v : A) (s n : nat) :
  (forall i, (s <= i < s + n)%nat -> f i = v) -> map f (seq s n) = repeat v n.
Proof.
  revert s; induction n as [| n IH]; intros s H; simpl; [reflexivity |].
  rewrite H by lia; f_equal; apply IH; intros i Hi; apply H; lia.
Qed.

Lemma seq3 (a b n : nat) :
  (a + b <= n)%nat -> seq 0 n = seq 0 a ++ seq a b ++ seq (a + b) (n - a - b).
Proof.
  intros H; rewrite <- seq_app, <- seq_app; f_equal; lia.
Qed.

(** The geometry of an integer box inside an integer region. *)
Lemma bbox_mask_geom_int (x y w h rows cols : Z) :
  (0 <= x)%Z -> (0 <= y)%Z -> (1 <= w)%Z -> (1 <= h)%Z ->
  (x + w <= cols)%Z -> (y + h <= rows)%Z ->
  bbox_mask_geom (mkbox (IZR x) (IZR y) (IZR w) (IZR h)) (IZR rows, IZR cols) =
  MaskGeom w h x (cols - (x + w)) y (rows - (y + h)) rows cols.
Proof.
  intros Hx Hy Hw Hh Hc Hr.
  pose proof (IZR_le _ _ Hx); pose proof (IZR_le _ _ Hy).
  pose proof (IZR_le _ _ Hc); pose proof (IZR_le _ _ Hr); rewrite plus_IZR in *.
  unfold bbox_mask_geom; cbn [box_x box_y box_w box_h].
  rewrite (Rmax_right (- IZR x) 0), (Rmax_right (- IZR y) 0) by lra.
  rewrite (Rmax_left (IZR x) 0), (Rmax_left (IZR y) 0) by lra.
  rewrite (Rmin_left (IZR x + IZR w)), (Rmin_left (IZR y + IZR h)) by lra.
  rewrite !Rminus_0_r, !torch_round_IZR, <- !plus_IZR, <- !minus_IZR, !py_int_IZR.
  f_equal; lia.
Qed.

(** The raster of an integer box inside an integer region is its 0/1
    indicator. *)
Lemma raster_int (x y w h rows cols : Z) :
  (0 <= x)%Z -> (0 <= y)%Z -> (1 <= w)%Z -> (1 <= h)%Z ->
  (x + w <= cols)%Z -> (y + h <= rows)%Z ->
  raster (MaskGeom w h x (cols - (x + w)) y (rows - (y + h)) rows cols) =
  map (fun i => map (fun j =>
         if ((y <=? Z.of_nat i) && (Z.of_nat i <? y + h) &&
             (x <=? Z.of_nat j) && (Z.of_nat j <? x + w))%Z%bool then 1%Z else 0%Z)
       (seq 0 (Z.to_nat cols))) (seq 0 (Z.to_nat rows)).
Proof.
  intros Hx Hy Hw Hh Hc Hr.
  rewrite raster_padded by (cbn; lia).
  cbn [pad_l pad_r pad_t pad_b core_w core_h slice_rows slice_cols].
  set (r0 := (repeat 0%Z (Z.to_nat x) ++ repeat 1%Z (Z.to_nat w))
               ++ repeat 0%Z (Z.to_nat (cols - (x + w)))).
  assert (Hr0 : length r0 = Z.to_nat cols)
    by (unfold r0; rewrite !length_app, !repeat_length; lia).
  assert (Hzr : length (hd [] (repeat r0 (Z.to_nat h))) = Z.to_nat cols).
  { destruct (Z.to_nat h) eqn:E; [lia | exact Hr0]. }
  rewrite Hzr.
  set (zr := repeat 0%Z (Z.to_nat cols)).
  set (padded := (repeat zr (Z.to_nat y) ++ repeat r0 (Z.to_nat h))
                   ++ repeat zr (Z.to_nat (rows - (y + h)))).
  assert (Hlen : length padded = Z.to_nat rows)
    by (unfold padded; rewrite !length_app, !repeat_length; lia).
  rewrite firstn_all2 by lia.
  assert (Hrows : map (firstn (Z.to_nat cols)) padded = padded).
  { rewrite <- (map_id padded) at 2; apply map_ext_in; intros row Hrow.
    apply firstn_all2.
    unfold padded in Hrow; rewrite !in_app_iff in Hrow.
    destruct Hrow as [[H | H] | H]; apply repeat_spec in H; subst row;
      unfold zr; rewrite ?repeat_length, ?Hr0; lia. }
  rewrite Hrows; unfold padded.
  rewrite (seq3 (Z.to_nat y) (Z.to_nat h) (Z.to_nat rows)) by lia.
  rewrite !map_app, <- app_assoc.
  replace (Z.to_nat rows - Z.to_nat y - Z.to_nat h)%nat with (Z.to_nat (rows - (y + h))) by lia.
  f_equal; [| f_equal]; symmetry; apply map_seq_const; intros i Hi.
  - replace (y <=? Z.of_nat i)%Z with false by (symmetry; apply Z.leb_gt; lia).
    symmetry; unfold zr; rewrite <- (length_seq (Z.to_nat cols) 0) at 1.
    rewrite <- map_const; reflexivity.
  - replace (y <=? Z.of_nat i)%Z with true by (symmetry; apply Z.leb_le; lia).
    replace (Z.of_nat i <? y + h)%Z with true by (symmetry; apply Z.ltb_lt; lia).
    cbn [andb]; unfold r0.
    rewrite (seq3 (Z.to_nat x) (Z.to_nat w) (Z.to_nat cols)) by lia.
    rewrite !map_app, <- app_assoc.
    replace (Z.to_nat cols - Z.to_nat x - Z.to_nat w)%nat
      with (Z.to_nat (cols - (x + w))) by lia.
    f_equal; [| f_equal]; apply map_seq_const; intros j Hj.
    + replace (x <=? Z.of_nat j)%Z with false by (symmetry; apply Z.leb_gt; lia); reflexivity.
    + replace (x <=? Z.of_nat j)%Z with true by (symmetry; apply Z.leb_le; lia).
      replace (Z.of_nat j <? x + w)%Z with true by (symmetry; apply Z.ltb_lt; lia).
      reflexivity.
    + replace (Z.of_nat j <? x + w)%Z with false by (symmetry; apply Z.ltb_ge; lia).
      rewrite andb_false_r; reflexivity.
  - replace (Z.of_nat i <? y + h)%Z with false by (symmetry; apply Z.ltb_ge; lia).
    rewrite andb_false_r; cbn [andb].
    symmetry; unfold zr; rewrite <- (length_seq (Z.to_nat cols) 0) at 1.
    rewrite <- map_const; reflexivity.
Qed.

Lemma in_concat_grid (f : nat -> nat -> Z) (r c i j : nat) :
  (i < r)%nat -> (j < c)%nat ->
  In (f i j) (concat (map (fun i => map (f i) (seq 0 c)) (seq 0 r))).
Proof.
  intros Hi Hj; apply in_concat; exists (map (f i) (seq 0 c)); split.
  - apply in_map_iff; exists i; split; [reflexivity | apply in_seq; lia].
  - apply in_map_iff; exists j; split; [reflexivity | apply in_seq; lia].
Qed.

(** The concrete filter returns bytes on bytes. *)
Lemma nearest_resample_byte (img : list (list Z)) (size : nat * nat) :
  Forall (Forall (fun z => (0 <= z <= 255)%Z)) img ->
  Forall (Forall (fun z => (0 <= z <= 255)%Z)) (nearest_resample img size).
Proof.
  intros H; unfold nearest_resample.
  apply Forall_forall; intros row Hrow; apply in_map_iff in Hrow as [i [<- _]].
  apply Forall_forall; intros z Hz; apply in_map_iff in Hz as [j [<- _]].
  apply Forall_nth'; [| lia].
  apply Forall_nth'; [exact H | constructor].
Qed.

Section MaskExtra.

(** The resampling filter of PIL's [Image.resize]. *)
Variable resample : list (list Z) -> nat * nat -> list (list Z).

Section Bytes.

(** PIL resizes an 8-bit image to an 8-bit image. *)
Hypothesis resample_byte : forall img size,
  Forall (Forall (fun z => (0 <= z <= 255)%Z)) img ->
  Forall (Forall (fun z => (0 <= z <= 255)%Z)) (resample img size).

(** Every entry of a mask built by [_bbox_to_mask] lies in [[0, 1]]. *)
Theorem bbox_to_mask_range (yy : box) (region_size : R * R) (output_size : nat * nat) :
  Forall (Forall (fun v => 0 <= v <= 1)) (_bbox_to_mask resample yy region_size output_size).
Proof.
  unfold _bbox_to_mask; cbv zeta.
  assert (Hb : Forall (Forall (fun z => (0 <= z <= 255)%Z))
                 (pil_resize resample (bytescale (raster (bbox_mask_geom yy region_size)))
                    output_size)).
  { unfold pil_resize; destruct (_ && _)%bool;
      [| apply resample_byte]; apply bytescale_range. }
  apply Forall_map; eapply Forall_impl; [| exact Hb]; intros row Hrow.
  apply Forall_map; eapply Forall_impl; [| exact Hrow]; intros z [H0 H1].
  apply IZR_le in H0, H1; split; unfold Rdiv;
    [apply Rmult_le_pos; [exact H0 | left; apply Rinv_0_lt_compat; lra] |].
  apply Rmult_le_reg_r with 255; [lra |].
  rewrite Rmult_assoc, Rinv_l by lra; lra.
Qed.

End Bytes.

Section Zeros.

(** PIL resizes an all-zero image to an all-zero image. *)
Hypothesis resample_zero : forall img size,
  Forall (Forall (fun z => z = 0%Z)) img ->
  resample img size = repeat (repeat 0%Z (snd size)) (fst size).

Lemma resize_zero_image (img : list (list Z)) (output_size : nat * nat) :
  Forall (Forall (fun z => z = 0%Z)) img ->
  Forall (fun row => length row = length (hd [] img)) img ->
  map (map (fun z => IZR z / 255)) (pil_resize resample img output_size) = zeros output_size.
Proof.
  intros Hzi Hui.
  assert (Himg : pil_resize resample img output_size =
                 repeat (repeat 0%Z (snd output_size)) (fst output_size)).
  { unfold pil_resize.
    destruct (Nat.eqb (length img) (fst output_size)) eqn:E1;
      destruct (Nat.eqb (length (hd [] img)) (snd output_size)) eqn:E2;
      simpl; try (apply resample_zero; exact Hzi).
    apply Nat.eqb_eq in E1; apply Nat.eqb_eq in E2.
    rewrite <- E1, <- E2; apply zero_image_repeat; assumption. }
  rewrite Himg, !map_repeat; unfold zeros.
  replace (IZR 0 / 255) with 0 by (unfold Rdiv; ring); reflexivity.
Qed.

(** A box that covers its whole region ([x <= 0], [y <= 0],
    [x + w >= regionCols], [y + h >= regionRows]) gives an all-zero mask:
    its raster is all ones, and [bytescale] maps a constant image to 0. *)
Theorem bbox_to_mask_full_box_zero (yy : box) (rs0 rs1 : R) (output_size : nat * nat) :
  box_x yy <= 0 -> box_y yy <= 0 ->
  rs1 <= box_x yy + box_w yy -> rs0 <= box_y yy + box_h yy ->
  _bbox_to_mask resample yy (rs0, rs1) output_size = zeros output_size.
Proof.
  intros Hx Hy Hc Hr.
  set (g := bbox_mask_geom yy (rs0, rs1)).
  assert (Hpl : pad_l g = 0%Z).
  { unfold g; cbn [pad_l bbox_mask_geom]; rewrite Rmax_right by lra; apply (py_int_IZR 0). }
  assert (Hpt : pad_t g = 0%Z).
  { unfold g; cbn [pad_t bbox_mask_geom]; rewrite Rmax_right by lra; apply (py_int_IZR 0). }
  assert (Hpr : pad_r g = 0%Z).
  { unfold g; cbn [pad_r bbox_mask_geom]; rewrite Rmin_right by lra.
    rewrite Rminus_diag; apply (py_int_IZR 0). }
  assert (Hpb : pad_b g = 0%Z).
  { unfold g; cbn [pad_b bbox_mask_geom]; rewrite Rmin_right by lra.
    rewrite Rminus_diag; apply (py_int_IZR 0). }
  assert (Hras : raster g =
                 map (firstn (Z.to_nat (slice_cols g)))
                   (firstn (Z.to_nat (slice_rows g))
                      (repeat (repeat 1%Z (Z.to_nat (core_w g))) (Z.to_nat (core_h g))))).
  { rewrite raster_padded by lia.
    rewrite Hpl, Hpr, Hpt, Hpb; cbn [Z.to_nat repeat app].
    rewrite !app_nil_r; reflexivity. }
  assert (H1 : Forall (Forall (fun z => z = 1%Z)) (raster g)).
  { rewrite Hras; apply Forall_map, Forall_firstn', Forall_repeat_P.
    apply Forall_firstn', Forall_repeat_eq. }
  assert (Hu : Forall (fun row => length row = length (hd [] (raster g))) (raster g)).
  { apply (rows_uniform_hd _ (min (Z.to_nat (slice_cols g)) (Z.to_nat (core_w g)))).
    rewrite Hras; apply Forall_map, Forall_firstn', Forall_repeat_P.
    rewrite length_firstn, repeat_length; reflexivity. }
  unfold _bbox_to_mask; fold g.
  rewrite (bytescale_const _ _ H1).
  destruct (map_zero_image _ Hu) as [Hzi Hui].
  apply resize_zero_image; assumption.
Qed.

End Zeros.

(** An integer box lying inside an integer region, leaving at least one
    pixel of the region uncovered, gives at the region's own size exactly its
    0/1 indicator: 1 at row [i], column [j] when [y <= i < y + h] and
    [x <= j < x + w], 0 elsewhere; no resampling takes place. *)
Theorem bbox_to_mask_int_box (x y w h rows cols : Z) :
  (0 <= x)%Z -> (0 <= y)%Z -> (1 <= w)%Z -> (1 <= h)%Z ->
  (x + w <= cols)%Z -> (y + h <= rows)%Z ->
  (0 < x \/ 0 < y \/ x + w < cols \/ y + h < rows)%Z ->
  _bbox_to_mask resample (mkbox (IZR x) (IZR y) (IZR w) (IZR h)) (IZR rows, IZR cols)
                (Z.to_nat rows, Z.to_nat cols) =
  box_indicator x y w h (Z.to_nat rows) (Z.to_nat cols).
Proof.
  intros Hx Hy Hw Hh Hc Hr Hout.
  unfold _bbox_to_mask; cbv zeta.
  rewrite bbox_mask_geom_int, raster_int by assumption.
  set (f := fun i j =>
         if ((y <=? Z.of_nat i) && (Z.of_nat i <? y + h) &&
             (x <=? Z.of_nat j) && (Z.of_nat j <? x + w))%Z%bool then 1%Z else 0%Z).
  change (fun i => map (fun j => if ((y <=? Z.of_nat i) && (Z.of_nat i <? y + h) &&
             (x <=? Z.of_nat j) && (Z.of_nat j <? x + w))%Z%bool then 1%Z else 0%Z)
                       (seq 0 (Z.to_nat cols)))
    with (fun i => map (f i) (seq 0 (Z.to_nat cols))).
  rewrite bytescale_01.
  - unfold pil_resize.
    rewrite !length_map, length_seq, Nat.eqb_refl.
    replace (length (hd [] (map (map (Z.mul 255))
               (map (fun i => map (f i) (seq 0 (Z.to_nat cols))) (seq 0 (Z.to_nat rows))))))
      with (Z.to_nat cols)
      by (destruct (Z.to_nat rows) eqn:E; [lia | simpl; rewrite !length_map, length_seq;
                                              reflexivity]).
    rewrite Nat.eqb_refl; cbn [andb fst snd].
    unfold box_indicator; rewrite !map_map; apply map_ext; intros i.
    rewrite !map_map; apply map_ext; intros j; unfold f.
    destruct (_ && _)%bool; [replace (255 * 1)%Z with 255%Z by reflexivity |
                             replace (255 * 0)%Z with 0%Z by reflexivity]; field.
  - apply Forall_forall; intros row Hrow; apply in_map_iff in Hrow as [i [<- _]].
    apply Forall_forall; intros z Hz; apply in_map_iff in Hz as [j [<- _]].
    unfold f; destruct (_ && _)%bool; auto.
  - destruct Hout as [Ho | [Ho | [Ho | Ho]]].
    + replace 0%Z with (f 0%nat 0%nat).
      * apply in_concat_grid; lia.
      * unfold f; replace (x <=? Z.of_nat 0)%Z with false by (symmetry; apply Z.leb_gt; lia).
        rewrite andb_false_r; reflexivity.
    + replace 0%Z with (f 0%nat 0%nat).
      * apply in_concat_grid; lia.
      * unfold f; replace (y <=? Z.of_nat 0)%Z with false by (symmetry; apply Z.leb_gt; lia).
        reflexivity.
    + replace 0%Z with (f 0%nat (Z.to_nat cols - 1)%nat).
      * apply in_concat_grid; lia.
      * unfold f; replace (Z.of_nat (Z.to_nat cols - 1) <? x + w)%Z with false
          by (symmetry; apply Z.ltb_ge; lia).
        rewrite andb_false_r; reflexivity.
    + replace 0%Z with (f (Z.to_nat rows - 1)%nat 0%nat).
      * apply in_concat_grid; lia.
      * unfold f; replace (Z.of_nat (Z.to_nat rows - 1) <? y + h)%Z with false
          by (symmetry; apply Z.ltb_ge; lia).
        rewrite andb_false_r; reflexivity.
  - replace 1%Z with (f (Z.to_nat y) (Z.to_nat x)).
    + apply in_concat_grid; lia.
    + unfold f.
      replace (y <=? Z.of_nat (Z.to_nat y))%Z with true by (symmetry; apply Z.leb_le; lia).
      replace (Z.of_nat (Z.to_nat y) <? y + h)%Z with true by (symmetry; apply Z.ltb_lt; lia).
      replace (x <=? Z.of_nat (Z.to_nat x))%Z with true by (symmetry; apply Z.leb_le; lia).
      replace (Z.of_nat (Z.to_nat x) <? x + w)%Z with true by (symmetry; apply Z.ltb_lt; lia).
      reflexivity.
Qed.

End MaskExtra.

Lemma bbox_to_mask_range_witness :
  Forall (Forall (fun v => 0 <= v <= 1))
    (_bbox_to_mask nearest_resample (mkbox 1 1 2 2) (4, 4) (2%nat, 2%nat)).
Proof. apply (bbox_to_mask_range nearest_resample nearest_resample_byte). Defined.

Lemma bbox_to_mask_full_box_zero_witness :
  _bbox_to_mask nearest_resample (mkbox 0 0 3 3) (3, 3) (2%nat, 2%nat) = zeros (2%nat, 2%nat).
Proof.
  apply (bbox_to_mask_full_box_zero nearest_resample nearest_resample_zero); simpl; lra.
Defined.

Lemma bbox_to_mask_int_box_witness :
  _bbox_to_mask nearest_resample (mkbox (IZR 1) (IZR 0) (IZR 2) (IZR 2)) (IZR 3, IZR 4)
                (Z.to_nat 3, Z.to_nat 4) =
  box_indicator 1 0 2 2 (Z.to_nat 3) (Z.to_nat 4).
Proof. apply (bbox_to_mask_int_box nearest_resample 1 0 2 2 3 4); lia. Defined.

(** *** [clip_grads], [clamp_bbox] and [masked_nll] *)

Lemma Rsum_sq_nonneg (g : list R) : 0 <= Rsum (map (fun v => v * v) g).
Proof.
  induction g as [| v g IH]; unfold Rsum in *; simpl; [lra |].
  pose proof (Rle_0_sqr v); unfold Rsqr in *; lra.
Qed.

Lemma norm_sq (g : list R) : norm g ^ 2 = Rsum (map (fun v => v * v) g).
Proof. unfold norm; apply pow2_sqrt, Rsum_sq_nonneg. Qed.

Lemma Rsum_div_sq (d : R) (g : list R) :
  d <> 0 ->
  Rsum (map (fun v => v * v) (map (fun v => v / d) g)) = Rsum (map (fun v => v * v) g) / (d * d).
Proof.
  intros Hd; induction g as [| v g IH]; unfold Rsum in *; simpl; [field; exact Hd |].
  rewrite IH; field; exact Hd.
Qed.

Lemma grad_norm_sq_nonneg (ps : list param) : 0 <= grad_norm_sq ps.
Proof.
  induction ps as [| [n [g|]] ps IH]; cbn -[pow norm]; [lra | | exact IH].
  pose proof (pow2_ge_0 (norm g)); lra.
Qed.

Lemma grad_norm_sq_div (d : R) (ps : list param) :
  d <> 0 -> grad_norm_sq (map (div_grad d) ps) = grad_norm_sq ps / (d * d).
Proof.
  intros Hd; induction ps as [| [n [g|]] ps IH]; cbn -[pow norm].
  - field; exact Hd.
  - rewrite IH, !norm_sq, Rsum_div_sq by exact Hd; field; exact Hd.
  - exact IH.
Qed.

(** With a positive [max_norm], the global norm of the gradients after
    [clip_grads] is the smaller of their global norm before and [max_norm]. *)
Theorem clip_grads_norm (ps : list param) (max_norm : R) :
  0 < max_norm -> grad_norm (clip_grads ps max_norm) = Rmin (grad_norm ps) max_norm.
Proof.
  intros Hm; unfold clip_grads; cbv zeta.
  destruct (Rlt_dec max_norm (grad_norm ps)) as [Hlt | Hge].
  - rewrite Rmin_right by lra.
    unfold grad_norm in *; pose proof (grad_norm_sq_nonneg ps) as Hg.
    set (G := grad_norm_sq ps) in *.
    assert (HsG : sqrt G * sqrt G = G) by (apply sqrt_sqrt; exact Hg).
    rewrite grad_norm_sq_div by (unfold Rdiv; apply Rmult_integral_contrapositive_currified; [lra | apply Rinv_neq_0_compat; lra]).
    fold G.
    replace (G / (sqrt G / max_norm * (sqrt G / max_norm))) with (max_norm * max_norm).
    + apply sqrt_square; lra.
    + rewrite <- HsG at 1; field; lra.
  - rewrite Rmin_left by lra; reflexivity.
Qed.

Lemma clip_grads_norm_witness :
  grad_norm (clip_grads [(0%nat, Some [6; 8])] 5) = Rmin (grad_norm [(0%nat, Some [6; 8])]) 5.
Proof. apply clip_grads_norm; lra. Defined.

(** [clamp_bbox] always returns boxes that pass [check_bbox_validness], so
    [intersection] of clamped boxes never fails its checks. *)
Theorem clamp_bbox_valid (a b : list box) :
  check_bbox_validness (map clamp_bbox a) = Some tt /\
  intersection (map clamp_bbox a) (map clamp_bbox b) =
    Some (zip_with inter1 (map clamp_bbox a) (map clamp_bbox b)).
Proof.
  assert (Hv : forall l, check_bbox_validness (map clamp_bbox l) = Some tt).
  { intros l; apply check_ok_iff, Forall_map, Forall_forall; intros x _.
    unfold clamp_bbox; simpl; rewrite !clamp_nonneg; split; apply Rmax_r. }
  split; [apply Hv |].
  unfold intersection; rewrite !Hv; reflexivity.
Qed.

(** [masked_nll] of entries in [(-eps, 1]] (probabilities), with a
    non-negative weight if any and some present object, is a finite
    non-negative number, and it is [0] when every entry is [1]. *)
Theorem masked_nll_loss_range (x presence : list (list R)) (weight : option (list (list R))) :
  weight_nonneg weight ->
  Exists (Exists (fun q => q <> 0)) presence ->
  (Forall (Forall (fun v => - eps_default < v <= 1)) x ->
   exists r, masked_nll x presence weight = Fin r /\ 0 <= r) /\
  (Forall (Forall (fun v => v = 1)) x -> masked_nll x presence weight = Fin 0).
Proof.
  intros Hw Hex; split; intros Hx.
  - apply masked_nll_nonneg; assumption.
  - apply masked_nll_ones; assumption.
Qed.

Lemma masked_nll_loss_range_witness :
  exists r, masked_nll [[/ 2; 1]] [[1; 0]] (Some [[2; 3]]) = Fin r /\ 0 <= r.
Proof.
  apply (masked_nll_loss_range [[/ 2; 1]] [[1; 0]] (Some [[2; 3]])).
  - simpl; constructor; [constructor; [lra | constructor; [lra | constructor]] | constructor].
  - apply Exists_cons_hd, Exists_cons_hd; lra.
  - constructor; [| constructor].
    pose proof eps_pos; constructor; [lra | constructor; [lra | constructor]].
Defined.
